(** * The question-answering route of [src/app/api/qa/route.ts]

    A shallow embedding of the route's building blocks (text normalisation,
    vocabulary lookup, tensor building, greedy decoding, model download,
    session management, request handling) followed by the properties that
    are established about them. *)

From Stdlib Require Import ZArith QArith List Bool Ascii String Lia.
From stdpp Require Import gmap list.
Import ListNotations.

Local Open Scope Z_scope.

(** Length of a JavaScript array, as a number. *)
Definition len {A : Type} (l : list A) : Z := Z.of_nat (length l).

(* ===================================================================== *)
(** ** Strings *)
(* ===================================================================== *)

Module Text.

(** A JavaScript string is a sequence of UTF-16 code units. *)
Definition ustring : Type := list N.

Definition of_ascii (s : string) : ustring :=
  map N_of_ascii (list_ascii_of_string s).

Definition between (lo hi c : N) : bool := (N.leb lo c && N.leb c hi)%bool.

Definition ueqb (a b : ustring) : bool := bool_decide (a = b).

(** The class [\s] of a regular expression without the [u] flag; it is
    also the set of code units that [String.prototype.trim] removes. *)
Definition isSpace (c : N) : bool :=
  (between 9 13 c || N.eqb c 32 || N.eqb c 160 || N.eqb c 5760
   || between 8192 8202 c || N.eqb c 8232 || N.eqb c 8233
   || N.eqb c 8239 || N.eqb c 8287 || N.eqb c 12288 || N.eqb c 65279)%bool.

(** The class [\w]: ASCII letters, digits and the underscore. *)
Definition isWord (c : N) : bool :=
  (between 97 122 c || between 65 90 c || between 48 57 c || N.eqb c 95)%bool.

(** The fifteen letters listed in the character class of [tokenize]:
    a-acute, c-caron, d-caron, e-acute, e-caron, i-acute, n-caron,
    o-acute, r-caron, s-caron, t-caron, u-acute, u-ring, y-acute,
    z-caron. *)
Definition diacritics : list N :=
  [225; 269; 271; 233; 283; 237; 328; 243; 345; 353; 357; 250; 367; 253; 382]%N.

Definition isDiacritic (c : N) : bool := existsb (N.eqb c) diacritics.

(** Capital forms of the fifteen letters, in the same order. *)
Definition capitalDiacritics : list N :=
  [193; 268; 270; 201; 282; 205; 327; 211; 344; 352; 356; 218; 366; 221; 381]%N.

Fixpoint assocN (c : N) (ks vs : list N) : option N :=
  match ks, vs with
  | k :: ks', v :: vs' => if N.eqb c k then Some v else assocN c ks' vs'
  | _, _ => None
  end.

(** [String.prototype.toLowerCase], one code unit at a time.  The mapping
    is exact on the ASCII letters, on the capitals of the fifteen
    diacritic letters, on U+0130 (whose lower-case form is [i] followed by
    U+0307) and on U+212A (the Kelvin sign, whose lower-case form is [k]).
    Every other code unit is left as it is: the lower-case form of such a
    unit contains no unit of the class kept by [replaceOther], and neither
    is the unit itself in that class unless it is its own lower-case form,
    so [replaceOther (toLowerCase s)] is what the source computes. *)
Definition lowerUnit (c : N) : list N :=
  if between 65 90 c then [(c + 32)%N]
  else match assocN c capitalDiacritics diacritics with
       | Some l => [l]
       | None =>
           if N.eqb c 304 then [105; 775]%N
           else if N.eqb c 8490 then [107]%N
           else [c]
       end.

Definition toLowerCase (s : ustring) : ustring := flat_map lowerUnit s.

(** [.replace(/[^\w\s...]/g, '')]: every code unit outside the class is
    deleted. *)
Definition kept (c : N) : bool := (isWord c || isSpace c || isDiacritic c)%bool.

Definition replaceOther (s : ustring) : ustring := List.filter kept s.

(** [.split(/\s+/)]: the pieces between maximal runs of white space.  A
    run at the start or at the end of the string leaves an empty piece
    there, and the empty string splits into one empty piece.  [cur] is the
    piece being read, reversed; [inRun] tells that the previous unit was
    white space. *)
Fixpoint splitFrom (s : ustring) (cur : ustring) (inRun : bool) : list ustring :=
  match s with
  | [] => [rev cur]
  | c :: s' =>
      if isSpace c then
        if inRun then splitFrom s' [] true
        else rev cur :: splitFrom s' [] true
      else splitFrom s' (c :: cur) false
  end.

Definition split (s : ustring) : list ustring := splitFrom s [] false.

(** A string is truthy when it is not empty. *)
Definition truthy (w : ustring) : bool :=
  match w with [] => false | _ => true end.

Fixpoint join (sep : ustring) (ws : list ustring) : ustring :=
  match ws with
  | [] => []
  | [w] => w
  | w :: rest => w ++ sep ++ join sep rest
  end.

Fixpoint trimStart (s : ustring) : ustring :=
  match s with
  | c :: s' => if isSpace c then trimStart s' else s
  | [] => []
  end.

Definition trim (s : ustring) : ustring := rev (trimStart (rev (trimStart s))).

Definition space : ustring := [32%N].

End Text.

(* ===================================================================== *)
(** ** Vocabulary, tokenizer and detokenizer *)
(* ===================================================================== *)

Module Vocab.
Import Text.

(** What [vocab[word] ?? 0] can evaluate to: a number, or the object that
    a plain object inherits under that name from [Object.prototype]. *)
Inductive token : Type :=
| Id (n : Z)
| Inherited.

(** The parsed [vocab.json]: its entries in [Object.entries] order, every
    identifier an integer. *)
Definition vocabulary : Type := list (ustring * Z).

(** The own property [word] of the vocabulary object. *)
Fixpoint own (vocab : vocabulary) (word : ustring) : option Z :=
  match vocab with
  | [] => None
  | (k, id) :: rest => if ueqb k word then Some id else own rest word
  end.

(** The names of [Object.prototype] that a lower-cased word can spell. *)
Definition inheritedNames : list ustring :=
  [of_ascii "constructor"; of_ascii "__proto__"].

Definition inherited (word : ustring) : bool := existsb (ueqb word) inheritedNames.

(** [vocab[word]]: [None] stands for [undefined]. *)
Definition get (vocab : vocabulary) (word : ustring) : option token :=
  match own vocab word with
  | Some id => Some (Id id)
  | None => if inherited word then Some Inherited else None
  end.

Definition words (text : ustring) : list ustring :=
  List.filter truthy (split (replaceOther (toLowerCase text))).

Definition tokenize (vocab : vocabulary) (text : ustring) : list token :=
  map (fun word => match get vocab word with
                   | Some t => t
                   | None => Id 0
                   end) (words text).

(** The loop of [detokenize] over [Object.entries(vocab)]: a later entry
    with the same identifier replaces an earlier one. *)
Definition reverseVocab (vocab : vocabulary) : gmap Z ustring :=
  fold_left (fun m e => <[snd e := fst e]> m) vocab ∅.

Definition markers : list ustring :=
  [of_ascii "<unk>"; of_ascii "<pad>"; of_ascii "<s>"; of_ascii "</s>"].

Definition isMarker (w : ustring) : bool := existsb (ueqb w) markers.

(** [reverseVocab[id]]; an inherited object used as a key names no entry. *)
Definition reverseGet (rv : gmap Z ustring) (t : token) : option ustring :=
  match t with
  | Id n => rv !! n
  | Inherited => None
  end.

Definition wanted (w : ustring) : bool := (truthy w && negb (isMarker w))%bool.

Fixpoint keepWanted (l : list (option ustring)) : list ustring :=
  match l with
  | [] => []
  | Some w :: r => if wanted w then w :: keepWanted r else keepWanted r
  | None :: r => keepWanted r
  end.

Definition detokenize (vocab : vocabulary) (tokenIds : list token) : ustring :=
  let rv := reverseVocab vocab in
  trim (join space (keepWanted (map (reverseGet rv) tokenIds))).

End Vocab.

(* ===================================================================== *)
(** ** Tensor builder *)
(* ===================================================================== *)

Module Tensor.
Import Text Vocab.

Definition maxLength : Z := 512.

(** [while (paddedTokens.length < maxLength) paddedTokens.push(0)].  Every
    turn makes the array one longer, so [maxLength] turns are enough for
    the test to fail (lemma [padLoop_exits] below). *)
Fixpoint padLoop (fuel : nat) (paddedTokens : list token) : list token :=
  match fuel with
  | O => paddedTokens
  | S k =>
      if len paddedTokens <? maxLength
      then padLoop k (paddedTokens ++ [Id 0])
      else paddedTokens
  end.

(** Lines 143-151: copy, then cut ([paddedTokens.length = maxLength]) or
    fill. *)
Definition padTokens (inputTokens : list token) : list token :=
  if len inputTokens >? maxLength
  then firstn (Z.to_nat maxLength) inputTokens
  else padLoop (Z.to_nat maxLength) inputTokens.

(** [t === 0]. *)
Definition isZero (t : token) : bool :=
  match t with
  | Id n => n =? 0
  | Inherited => false
  end.

(** Line 162: [paddedTokens.map(t => t === 0 ? BigInt(0) : BigInt(1))]. *)
Definition attentionMask (paddedTokens : list token) : list Z :=
  map (fun t => if isZero t then 0 else 1) paddedTokens.

(** Storing a BigInt in a [BigInt64Array] keeps its low 64 bits, signed. *)
Definition asInt64 (x : Z) : Z := (x + 2 ^ 63) mod 2 ^ 64 - 2 ^ 63.

(** [BigInt(t)] throws when [t] is not a number. *)
Definition toBigInt (t : token) : option Z :=
  match t with
  | Id n => Some n
  | Inherited => None
  end.

(** Line 156: [BigInt64Array.from(paddedTokens.map(t => BigInt(t)))];
    [None] when a conversion throws. *)
Fixpoint inputIds (paddedTokens : list token) : option (list Z) :=
  match paddedTokens with
  | [] => Some []
  | t :: rest =>
      match toBigInt t, inputIds rest with
      | Some x, Some xs => Some (asInt64 x :: xs)
      | _, _ => None
      end
  end.

End Tensor.

(* ===================================================================== *)
(** ** Greedy decoder *)
(* ===================================================================== *)

Module Decoder.

(** The numbers read from the [Float32Array] of logits, as far as [>]
    can tell them apart: not-a-number, the two infinities, and the finite
    values, each standing for the rational it denotes. *)
Inductive number : Type :=
| NaN
| NegInf
| Fin (q : Q)
| PosInf.

(** [a < b] on numbers; a comparison with [NaN] is false. *)
Definition ltb (a b : number) : bool :=
  match a, b with
  | NaN, _ | _, NaN => false
  | _, NegInf => false
  | NegInf, _ => true
  | PosInf, _ => false
  | Fin _, PosInf => true
  | Fin x, Fin y => match (x ?= y)%Q with Lt => true | _ => false end
  end.

(** [a <= b]. *)
Definition leb (a b : number) : bool :=
  match a, b with
  | NaN, _ | _, NaN => false
  | NegInf, _ => true
  | _, PosInf => true
  | Fin x, Fin y => match (x ?= y)%Q with Gt => false | _ => true end
  | _, _ => false
  end.

(** [a > b]. *)
Definition gtb (a b : number) : bool := ltb b a.

Definition isNaN (a : number) : bool :=
  match a with NaN => true | _ => false end.

(** [logitsData[k]]: an index outside the array yields [undefined], which
    [>] converts to [NaN]. *)
Definition read (logitsData : list number) (k : Z) : number :=
  if k <? 0 then NaN else nth (Z.to_nat k) logitsData NaN.

(** The bound on the candidate identifiers, line 195. *)
Definition candidates (vocabSize : Z) : Z := Z.min vocabSize 10000.

(** Lines 195-201, with [n] turns left and [t] the next candidate. *)
Fixpoint scan (logitsData : list number) (offset : Z) (n : nat) (t : Z)
  (maxProb : number) (maxToken : Z) : number * Z :=
  match n with
  | O => (maxProb, maxToken)
  | S k =>
      let prob := read logitsData (offset + t) in
      if gtb prob maxProb
      then scan logitsData offset k (t + 1) prob t
      else scan logitsData offset k (t + 1) maxProb maxToken
  end.

(** Lines 191-201: the identifier chosen for the row that starts at
    [offset]. *)
Definition argmax (logitsData : list number) (vocabSize offset : Z) : Z :=
  snd (scan logitsData offset (Z.to_nat (candidates vocabSize)) 0 NegInf 0).

(** Lines 187-205, with [turns] turns of the [for] loop left before [i]
    reaches [maxNewTokens]. *)
Fixpoint decodeLoop (logitsData : list number) (vocabSize startIdx maxLength : Z)
  (turns : nat) (i : Z) (outputTokens : list Z) : list Z :=
  match turns with
  | O => outputTokens
  | S k =>
      let tokenPos := startIdx + i in
      if tokenPos >=? maxLength then outputTokens
      else
        let maxToken := argmax logitsData vocabSize (tokenPos * vocabSize) in
        if ((maxToken =? 0) || (maxToken =? 2))%bool then outputTokens
        else decodeLoop logitsData vocabSize startIdx maxLength k (i + 1)
               (outputTokens ++ [maxToken])
  end.

(** The loop runs [i] from 0 while [i < maxNewTokens]. *)
Definition decode (logitsData : list number) (vocabSize startIdx maxLength maxNewTokens : Z)
  : list Z :=
  decodeLoop logitsData vocabSize startIdx maxLength (Z.to_nat maxNewTokens) 0 [].

Definition maxNewTokens : Z := 100.

End Decoder.

(* ===================================================================== *)
(** ** Model acquirer *)
(* ===================================================================== *)

Module Acquirer.

(** The file system as [downloadModel] sees it: the content of the file at
    [MODEL_CACHE], if there is one. *)
Definition disk : Type := option (list Z).

(** What one [https.get] delivers: an ['error'] event on the request, or a
    response whose body is piped to the file up to its end. *)
Inductive reply : Type :=
| RequestError (message : string)
| Response (statusCode : Z) (body : list Z).

(** The replies to the request for [MODEL_URL] and to the request for the
    [location] it may redirect to. *)
Record network : Type := {
  first : reply;
  redirected : reply
}.

Inductive outcome : Type :=
| Resolved
| Rejected (message : string).

Record download : Type := {
  settled : outcome;
  after : disk;
  requests : nat
}.

(** Lines 16-23: nothing to do when the file exists; otherwise
    [fs.createWriteStream] makes an empty file. *)
Definition start (d : disk) : option disk :=
  match d with
  | Some _ => None
  | None => Some (Some [])
  end.

(** Lines 25-47, once the file is open. *)
Definition finish (net : network) (d : disk) : download :=
  match first net with
  | RequestError e =>
      (* line 45: fs.unlink(MODEL_CACHE), then reject *)
      {| settled := Rejected e; after := None; requests := 1 |}
  | Response statusCode body =>
      if ((statusCode =? 302) || (statusCode =? 301))%bool then
        match redirected net with
        | RequestError e =>
            (* line 35: .on('error', reject) *)
            {| settled := Rejected e; after := d; requests := 2 |}
        | Response _ body' =>
            {| settled := Resolved; after := Some body'; requests := 2 |}
        end
      else {| settled := Resolved; after := Some body; requests := 1 |}
  end.

Definition downloadModel (d : disk) (net : network) : download :=
  match start d with
  | None => {| settled := Resolved; after := d; requests := 0 |}
  | Some d' => finish net d'
  end.

End Acquirer.

(* ===================================================================== *)
(** ** Session manager *)
(* ===================================================================== *)

Module SessionManager.
Import Acquirer.

(** The promises that [getSession] awaits: the one returned by
    [downloadModel()] and the one returned by [InferenceSession.create]. *)
Inductive promise : Type :=
| Downloading
| Creating
| Fulfilled
| Failed.

(** Where a call of [getSession] stands. *)
Inductive caller : Type :=
| Ready                      (* getSession() not called yet *)
| AwaitLoading (p : nat)     (* suspended at line 57 *)
| AwaitDownload (p : nat)    (* suspended at line 63 *)
| AwaitCreate (p : nat)      (* suspended at line 67 *)
| Returned (s : nat)         (* returned the session object [s] *)
| Threw.

(** The module-level variables of lines 10 and 12, the promises made so
    far, the cache file, two counters, and the scheduler of the runtime:
    the callers suspended on a pending promise, in the order in which they
    began to wait, and the queue of callers that are due to resume.  A
    session object is named by the promise of the [create] call that made
    it. *)
Record state : Type := {
  session : option nat;
  modelLoading : option nat;
  promises : list promise;
  cache : disk;
  fetches : nat;
  creates : nat;
  callers : list caller;
  waiting : list nat;
  microtasks : list nat
}.

Definition init (n : nat) : state :=
  {| session := None; modelLoading := None; promises := []; cache := None;
     fetches := 0; creates := 0; callers := repeat Ready n;
     waiting := []; microtasks := [] |}.

Definition isSettled (ps : list promise) (p : nat) : bool :=
  match nth_error ps p with
  | Some Fulfilled | Some Failed => true
  | _ => false
  end.

Definition awaited (c : caller) : option nat :=
  match c with
  | AwaitLoading p | AwaitDownload p | AwaitCreate p => Some p
  | _ => None
  end.

Definition setCaller (i : nat) (c : caller) (s : state) : state :=
  {| session := session s; modelLoading := modelLoading s;
     promises := promises s; cache := cache s; fetches := fetches s;
     creates := creates s; callers := <[i := c]> (callers s);
     waiting := waiting s; microtasks := microtasks s |}.

(** [await p]: the caller resumes in a later microtask when [p] is settled
    already, and waits for [p] otherwise. *)
Definition suspend (i : nat) (c : caller) (p : nat) (s : state) : state :=
  let s' := setCaller i c s in
  {| session := session s'; modelLoading := modelLoading s';
     promises := promises s'; cache := cache s'; fetches := fetches s';
     creates := creates s'; callers := callers s';
     waiting := if isSettled (promises s) p then waiting s else waiting s ++ [i];
     microtasks := if isSettled (promises s) p then microtasks s ++ [i] else microtasks s |}.

(** Lines 62-63: [modelLoading = downloadModel(); await modelLoading]. *)
Definition callDownload (i : nat) (s : state) : state :=
  let p := length (promises s) in
  match start (cache s) with
  | None =>
      suspend i (AwaitDownload p) p
        {| session := session s; modelLoading := Some p;
           promises := promises s ++ [Fulfilled]; cache := cache s;
           fetches := fetches s; creates := creates s; callers := callers s;
           waiting := waiting s; microtasks := microtasks s |}
  | Some d =>
      suspend i (AwaitDownload p) p
        {| session := session s; modelLoading := Some p;
           promises := promises s ++ [Downloading]; cache := d;
           fetches := S (fetches s); creates := creates s; callers := callers s;
           waiting := waiting s; microtasks := microtasks s |}
  end.

(** Lines 64-67: [modelLoading = null], then
    [session = await ort.InferenceSession.create(...)]. *)
Definition callCreate (i : nat) (s : state) : state :=
  let c := length (promises s) in
  suspend i (AwaitCreate c) c
    {| session := session s; modelLoading := None;
       promises := promises s ++ [Creating]; cache := cache s;
       fetches := fetches s; creates := S (creates s); callers := callers s;
       waiting := waiting s; microtasks := microtasks s |}.

(** Lines 53-63: the call itself, up to its first [await] or [return]. *)
Definition enter (i : nat) (s : state) : state :=
  match session s with
  | Some o => setCaller i (Returned o) s
  | None =>
      match modelLoading s with
      | Some p => suspend i (AwaitLoading p) p s
      | None => callDownload i s
      end
  end.

(** A suspended caller goes on after the promise it awaits has settled; a
    rejected promise makes the [await] throw out of [getSession]. *)
Definition resume (i : nat) (s : state) : state :=
  match nth_error (callers s) i with
  | Some (AwaitLoading p) =>
      match nth_error (promises s) p with
      | Some Fulfilled =>
          match session s with
          | Some o => setCaller i (Returned o) s          (* line 58 *)
          | None => callDownload i s
          end
      | Some Failed => setCaller i Threw s
      | _ => s
      end
  | Some (AwaitDownload p) =>
      match nth_error (promises s) p with
      | Some Fulfilled => callCreate i s
      | Some Failed => setCaller i Threw s
      | _ => s
      end
  | Some (AwaitCreate c) =>
      match nth_error (promises s) c with
      | Some Fulfilled =>
          setCaller i (Returned c)                         (* lines 67, 73 *)
            {| session := Some c; modelLoading := modelLoading s;
               promises := promises s; cache := cache s; fetches := fetches s;
               creates := creates s; callers := callers s;
               waiting := waiting s; microtasks := microtasks s |}
      | Some Failed => setCaller i Threw s
      | _ => s
      end
  | _ => s
  end.

(** The runtime empties the microtask queue before it takes the next
    event. *)
Fixpoint drain (fuel : nat) (s : state) : option state :=
  match microtasks s with
  | [] => Some s
  | i :: rest =>
      match fuel with
      | O => None
      | S k =>
          drain k (resume i
            {| session := session s; modelLoading := modelLoading s;
               promises := promises s; cache := cache s; fetches := fetches s;
               creates := creates s; callers := callers s;
               waiting := waiting s; microtasks := rest |})
      end
  end.

Definition awaits (s : state) (p : nat) (i : nat) : bool :=
  match nth_error (callers s) i with
  | Some c => match awaited c with
              | Some q => Nat.eqb p q
              | None => false
              end
  | None => false
  end.

(** The promise [p] settles as [v]: the callers that wait for it are
    queued in the order in which they began to wait. *)
Definition settle (p : nat) (v : promise) (d : disk) (s : state) : state :=
  {| session := session s; modelLoading := modelLoading s;
     promises := <[p := v]> (promises s); cache := d; fetches := fetches s;
     creates := creates s; callers := callers s;
     waiting := List.filter (fun i => negb (awaits s p i)) (waiting s);
     microtasks := microtasks s ++ List.filter (awaits s p) (waiting s) |}.

(** What happens from outside: a request calls [getSession()], a download
    in flight comes to its end, a session construction comes to its end. *)
Inductive event : Type :=
| Call (i : nat)
| DownloadEnds (p : nat) (net : network)
| CreateEnds (c : nat) (ok : bool).

Definition budget (s : state) : nat := 3 * length (callers s) + 3.

(** One event, then the microtasks it causes; [None] when the event cannot
    happen in this state. *)
Definition step (e : event) (s : state) : option state :=
  match e with
  | Call i =>
      match nth_error (callers s) i with
      | Some Ready => drain (budget s) (enter i s)
      | _ => None
      end
  | DownloadEnds p net =>
      match nth_error (promises s) p with
      | Some Downloading =>
          let r := finish net (cache s) in
          drain (budget s)
            (settle p (match settled r with
                       | Resolved => Fulfilled
                       | Rejected _ => Failed
                       end) (after r) s)
      | _ => None
      end
  | CreateEnds c ok =>
      match nth_error (promises s) c with
      | Some Creating =>
          drain (budget s) (settle c (if ok then Fulfilled else Failed) (cache s) s)
      | _ => None
      end
  end.

Fixpoint run (es : list event) (s : state) : option state :=
  match es with
  | [] => Some s
  | e :: rest =>
      match step e s with
      | Some s' => run rest s'
      | None => None
      end
  end.

End SessionManager.

(* ===================================================================== *)
(** ** The POST handler *)
(* ===================================================================== *)

Module Handler.
Import Text Vocab Tensor Decoder.

(** A parsed request body.  The members of an object are its own
    properties. *)
#[warnings="-register-all"]
Inductive json : Type :=
| JNull
| JBool (b : bool)
| JNumber (q : Q)
| JString (s : ustring)
| JArray (items : list json)
| JObject (members : list (ustring * json)).

(** What the [catch] clause of [POST] can receive. *)
Inductive failure : Type :=
| BodyNotJson                     (* req.json() rejects *)
| BodyIsNull                      (* destructuring null throws *)
| NotANumber                      (* BigInt(t) throws *)
| Thrown (message type : string)  (* thrown by getSession() or model.run() *).

(** The response, without the two clock readings of its metadata. *)
Inductive response : Type :=
| Json400 (error : ustring)
| Json500 (f : failure)
| Json200 (question answer : ustring) (input_tokens output_tokens : Z).

Definition status (r : response) : Z :=
  match r with
  | Json400 _ => 400
  | Json500 _ => 500
  | Json200 _ _ _ _ => 200
  end.

(** What the handler finds around it: the parsed vocabulary file, whether
    [getSession()] throws, and what [model.run] does with the two
    tensors. *)
Record world : Type := {
  vocab : vocabulary;
  sessionFailure : option failure;
  forward : list Z -> list Z -> failure + list number
}.

Fixpoint lookup (name : ustring) (members : list (ustring * json)) : option json :=
  match members with
  | [] => None
  | (k, v) :: rest => if ueqb k name then Some v else lookup name rest
  end.

(** [const { question } = body] for a body other than [null]; [None]
    stands for [undefined]. *)
Definition questionOf (body : json) : option json :=
  match body with
  | JObject members => lookup (of_ascii "question") members
  | _ => None
  end.

(** [!question]. *)
Definition falsy (question : option json) : bool :=
  match question with
  | None => true
  | Some JNull => true
  | Some (JBool b) => negb b
  | Some (JNumber q) => Qeq_bool q 0
  | Some (JString s) => negb (truthy s)
  | Some _ => false
  end.

(** [typeof question !== 'string']. *)
Definition notString (question : option json) : bool :=
  match question with
  | Some (JString _) => false
  | _ => true
  end.

Definition required : ustring :=
  of_ascii "Parametr " ++ [34%N] ++ of_ascii "question" ++ [34%N]
  ++ of_ascii " je povinn" ++ [253%N].

Definition promptHead : ustring := of_ascii "Ot" ++ [225%N] ++ of_ascii "zka: ".

Definition promptTail : ustring :=
  [10%N] ++ of_ascii "Odpov" ++ [283%N; 271%N] ++ of_ascii ":".

Definition fallback : ustring := of_ascii "Model negeneroval odpov" ++ [283%N; 271%N].

Definition prompt (question : ustring) : ustring :=
  promptHead ++ question ++ promptTail.

(** Lines 134-224, for a question that passed the test of line 124. *)
Definition answer (w : world) (question : ustring) : response :=
  match sessionFailure w with
  | Some f => Json500 f
  | None =>
      let inputTokens := tokenize (vocab w) (prompt question) in
      let paddedTokens := padTokens inputTokens in
      match inputIds paddedTokens with
      | None => Json500 NotANumber
      | Some ids =>
          match forward w ids (attentionMask paddedTokens) with
          | inl f => Json500 f
          | inr logitsData =>
              let vocabSize := len (vocab w) in
              let startIdx := len inputTokens in
              let outputTokens :=
                decode logitsData vocabSize startIdx maxLength maxNewTokens in
              let text := detokenize (vocab w) (map Id outputTokens) in
              Json200 question (if truthy text then text else fallback)
                (len inputTokens) (len outputTokens)
          end
      end
  end.

(** Lines 121-128 and 226-232; [None] is a body that [req.json()] cannot
    parse. *)
Definition POST (w : world) (body : option json) : response :=
  match body with
  | None => Json500 BodyNotJson
  | Some JNull => Json500 BodyIsNull
  | Some v =>
      let question := questionOf v in
      if (falsy question || notString question)%bool then Json400 required
      else match question with
           | Some (JString q) => answer w q
           | _ => Json400 required
           end
  end.

End Handler.

Import Text Vocab Tensor Decoder Acquirer SessionManager Handler.

(* ===================================================================== *)
(** ** Properties of the tensor builder *)
(* ===================================================================== *)

Section TensorFacts.

Lemma len_app {A : Type} (l k : list A) : len (l ++ k) = len l + len k.
Proof. unfold len. rewrite length_app. lia. Qed.

Lemma len_nonneg {A : Type} (l : list A) : 0 <= len l.
Proof. unfold len. lia. Qed.

(** With enough fuel the loop is left through its test, and what it has
    pushed by then is a run of zeros. *)
Lemma padLoop_exits (fuel : nat) (l : list token) :
  maxLength - len l <= Z.of_nat fuel ->
  padLoop fuel l = l ++ repeat (Id 0) (Z.to_nat (maxLength - len l)).
Proof.
  revert l. induction fuel as [|k IH]; intros l Hfuel; simpl.
  - replace (Z.to_nat (maxLength - len l)) with O by lia.
    simpl. now rewrite app_nil_r.
  - destruct (Z.ltb_spec (len l) maxLength) as [Hlt|Hge].
    + rewrite IH by (rewrite len_app; unfold len at 2; simpl; lia).
      rewrite len_app. unfold len at 2. simpl length.
      replace (Z.to_nat (maxLength - len l))
        with (S (Z.to_nat (maxLength - (len l + 1)))) by lia.
      simpl. now rewrite <- app_assoc.
    + replace (Z.to_nat (maxLength - len l)) with O by lia.
      simpl. now rewrite app_nil_r.
Qed.

Lemma padTokens_short (inputTokens : list token) :
  len inputTokens <= maxLength ->
  padTokens inputTokens
  = inputTokens ++ repeat (Id 0) (Z.to_nat (maxLength - len inputTokens)).
Proof.
  intros Hle. unfold padTokens.
  destruct (Z.gtb_spec (len inputTokens) maxLength) as [Hgt|_]; [lia|].
  apply padLoop_exits. pose proof (len_nonneg inputTokens). lia.
Qed.

Lemma padTokens_long (inputTokens : list token) :
  maxLength < len inputTokens ->
  padTokens inputTokens = firstn (Z.to_nat maxLength) inputTokens.
Proof.
  intros Hlt. unfold padTokens.
  destruct (Z.gtb_spec (len inputTokens) maxLength) as [_|Hle]; [reflexivity|lia].
Qed.

Lemma padTokens_len (inputTokens : list token) :
  len (padTokens inputTokens) = maxLength.
Proof.
  destruct (Z_lt_le_dec maxLength (len inputTokens)) as [Hlt|Hle].
  - rewrite padTokens_long by assumption. unfold len in *.
    rewrite length_firstn. unfold maxLength in *. lia.
  - rewrite padTokens_short by assumption. rewrite len_app.
    unfold len at 2. rewrite repeat_length.
    pose proof (len_nonneg inputTokens). unfold maxLength in *. lia.
Qed.

Lemma attentionMask_len (paddedTokens : list token) :
  len (attentionMask paddedTokens) = len paddedTokens.
Proof. unfold attentionMask, len. now rewrite length_map. Qed.

Lemma inputIds_len (paddedTokens : list token) (ids : list Z) :
  inputIds paddedTokens = Some ids -> len ids = len paddedTokens.
Proof.
  revert ids. induction paddedTokens as [|t rest IH]; intros ids; simpl.
  - intros [= <-]. reflexivity.
  - destruct (toBigInt t); [|discriminate].
    destruct (inputIds rest) as [xs|]; [|discriminate].
    intros [= <-]. unfold len in *. simpl. rewrite Nat2Z.inj_succ.
    rewrite (IH xs eq_refl). lia.
Qed.

(** C7.  Whatever the input token sequence is (empty, short, or longer
    than [maxLength]), the padded token sequence and the attention mask
    both have length exactly [maxLength] = 512, and so has the tensor of
    identifiers whenever it can be built. *)
Theorem tensors_have_length_maxLength (inputTokens : list token) :
  maxLength = 512
  /\ len (padTokens inputTokens) = maxLength
  /\ len (attentionMask (padTokens inputTokens)) = maxLength
  /\ match inputIds (padTokens inputTokens) with
     | Some ids => len ids = maxLength
     | None => True
     end.
Proof.
  split; [reflexivity|]. split; [apply padTokens_len|].
  split; [rewrite attentionMask_len; apply padTokens_len|].
  destruct (inputIds (padTokens inputTokens)) as [ids|] eqn:E; [|exact I].
  rewrite (inputIds_len _ _ E). apply padTokens_len.
Qed.

Lemma isZero_Id0 (t : token) : isZero t = true <-> t = Id 0.
Proof.
  destruct t as [n|]; simpl.
  - rewrite Z.eqb_eq. split; [now intros ->|now intros [= ->]].
  - split; discriminate.
Qed.

Lemma attentionMask_lookup (paddedTokens : list token) (i : nat) (t : token) :
  paddedTokens !! i = Some t ->
  attentionMask paddedTokens !! i = Some (if isZero t then 0 else 1).
Proof.
  intros H. unfold attentionMask. rewrite list_lookup_fmap_Some.
  exists t. split; [reflexivity|assumption].
Qed.

(** C2, as the code has it.  At every position [i] below [maxLength] the
    mask is 0 exactly when the padded token sequence holds the identifier
    0 there; a position at or beyond the original length always holds 0,
    and a position before it holds the input token, so that its mask is 0
    exactly when that input token is itself 0 (an unknown word). *)
Theorem attentionMask_zero_iff_token_zero (inputTokens : list token) (i : nat)
  (Hi : Z.of_nat i < maxLength) :
  exists (t : token) (m : Z),
    padTokens inputTokens !! i = Some t
    /\ attentionMask (padTokens inputTokens) !! i = Some m
    /\ (m = 0 <-> t = Id 0)
    /\ (len inputTokens <= Z.of_nat i -> t = Id 0 /\ m = 0)
    /\ (Z.of_nat i < len inputTokens -> inputTokens !! i = Some t).
Proof.
  assert (Hlen : (i < length (padTokens inputTokens))%nat).
  { pose proof (padTokens_len inputTokens) as H. unfold len in H. lia. }
  destruct (lookup_lt_is_Some_2 _ _ Hlen) as [t Ht].
  exists t, (if isZero t then 0 else 1).
  split; [exact Ht|]. split; [now apply attentionMask_lookup|].
  assert (Hm : (if isZero t then 0 else 1) = 0 <-> t = Id 0).
  { rewrite <- isZero_Id0. destruct (isZero t); split; congruence. }
  split; [exact Hm|].
  destruct (Z_lt_le_dec maxLength (len inputTokens)) as [Hlong|Hshort].
  - rewrite padTokens_long in Ht by assumption.
    split; [intros; lia|]. intros _.
    rewrite lookup_take_lt in Ht by lia. exact Ht.
  - rewrite padTokens_short in Ht by assumption. split.
    + intros Hge. unfold len in Hge.
      rewrite lookup_app_r in Ht by lia.
      apply list_elem_of_lookup_2, list_elem_of_In, repeat_spec in Ht.
      subst t.
      split; [reflexivity|]. now apply Hm.
    + intros Hlt. unfold len in Hlt.
      rewrite lookup_app_l in Ht by lia. exact Ht.
Qed.

Lemma attentionMask_zero_iff_token_zero_witness :
  exists (t : token) (m : Z),
    padTokens [Id 0; Id 5] !! 0%nat = Some t
    /\ attentionMask (padTokens [Id 0; Id 5]) !! 0%nat = Some m
    /\ (m = 0 <-> t = Id 0)
    /\ (len [Id 0; Id 5] <= Z.of_nat 0 -> t = Id 0 /\ m = 0)
    /\ (Z.of_nat 0 < len [Id 0; Id 5] -> [Id 0; Id 5] !! 0%nat = Some t).
Proof.
  apply (attentionMask_zero_iff_token_zero [Id 0; Id 5] 0).
  reflexivity.
Defined.

(** C2, as it is worded, is refuted by a sequence whose only token is the
    identifier 0 of an unknown word: the mask is 0 at position 0, which
    lies before the original length 1. *)
Lemma attentionMask_zero_before_length :
  ~ (forall (inputTokens : list token) (i : nat), Z.of_nat i < maxLength ->
       forall (t : token) (m : Z),
         padTokens inputTokens !! i = Some t ->
         attentionMask (padTokens inputTokens) !! i = Some m ->
         (m = 0 <-> t = Id 0 /\ len inputTokens <= Z.of_nat i)).
Proof.
  intros H.
  specialize (H [Id 0] 0%nat eq_refl (Id 0) 0 eq_refl eq_refl).
  destruct H as [H _]. destruct (H eq_refl) as [_ Hle].
  unfold len in Hle. simpl in Hle. lia.
Qed.

End TensorFacts.

(* ===================================================================== *)
(** ** Properties of the decoder *)
(* ===================================================================== *)

Section DecoderFacts.

Lemma Qcompare_chain (x y z : Q) :
  (x ?= y)%Q = Lt -> (x ?= z)%Q <> Lt -> (y ?= z)%Q = Gt.
Proof.
  intros Hxy Hxz. apply Qgt_alt. apply Qlt_alt in Hxy.
  apply Qle_lt_trans with x; [|exact Hxy].
  apply Qnot_lt_le. intros H. apply Hxz. now apply Qlt_alt.
Qed.

(** If [p] is greater than [m] and [s] is not, then [s] is not at least
    [p]. *)
Lemma above_the_rest (m p s : number) :
  ltb m p = true -> ltb m s = false -> leb p s = false.
Proof.
  destruct m as [| |x|], p as [| |y|], s as [| |z|]; simpl;
    try congruence; intros Hmp Hms.
  destruct (x ?= y)%Q eqn:Exy; try discriminate.
  rewrite (Qcompare_chain x y z Exy); [reflexivity|].
  intros Exz. now rewrite Exz in Hms.
Qed.

Lemma leb_false_ltb_false (a b : number) : leb a b = false -> ltb a b = false.
Proof.
  destruct a as [| |x|], b as [| |y|]; simpl; try congruence.
  destruct (x ?= y)%Q; congruence.
Qed.

Lemma ltb_irrefl (a : number) : ltb a a = false.
Proof.
  destruct a as [| |x|]; simpl; try reflexivity.
  now rewrite (proj1 (Qeq_alt x x) (Qeq_refl x)).
Qed.

(** Without [NaN] the two comparisons are complements of each other. *)
Lemma ltb_false_leb (a b : number) :
  isNaN a = false -> isNaN b = false -> ltb a b = false -> leb b a = true.
Proof.
  destruct a as [| |x|], b as [| |y|]; simpl; try congruence.
  intros _ _. rewrite <- (Qcompare_antisym x y).
  destruct (x ?= y)%Q; simpl; congruence.
Qed.

Lemma leb_false_ltb (a b : number) :
  isNaN a = false -> isNaN b = false -> leb a b = false -> ltb b a = true.
Proof.
  destruct a as [| |x|], b as [| |y|]; simpl; try congruence.
  intros _ _. rewrite <- (Qcompare_antisym x y).
  destruct (x ?= y)%Q; simpl; congruence.
Qed.

(** What the scan knows after it has looked at the candidates below [t]:
    none of them is greater than [maxProb], none below [maxToken] is at
    least [maxProb], and [maxProb] is the value at [maxToken] unless
    nothing has been greater than [-Infinity] yet. *)
Definition scanned (logitsData : list number) (offset t : Z)
  (maxProb : number) (maxToken : Z) : Prop :=
  (forall s, 0 <= s < t -> ltb maxProb (read logitsData (offset + s)) = false)
  /\ (forall s, 0 <= s < maxToken -> leb maxProb (read logitsData (offset + s)) = false)
  /\ 0 <= maxToken
  /\ (maxToken < t \/ maxToken = 0)
  /\ (maxProb = read logitsData (offset + maxToken) \/ (maxProb = NegInf /\ maxToken = 0)).

Lemma scan_keeps_scanned (logitsData : list number) (offset : Z) (n : nat) :
  forall (t : Z) (maxProb : number) (maxToken : Z),
    0 <= t ->
    scanned logitsData offset t maxProb maxToken ->
    scanned logitsData offset (t + Z.of_nat n)
      (fst (scan logitsData offset n t maxProb maxToken))
      (snd (scan logitsData offset n t maxProb maxToken)).
Proof.
  induction n as [|k IH]; intros t maxProb maxToken Ht Hinv.
  - simpl. now rewrite Z.add_0_r.
  - cbn [scan]. replace (t + Z.of_nat (S k)) with ((t + 1) + Z.of_nat k) by lia.
    destruct Hinv as (Hmax & Hfirst & Hpos & Hrange & Hval).
    destruct (gtb (read logitsData (offset + t)) maxProb) eqn:Egt;
      unfold gtb in Egt; apply IH; try lia; repeat split; try lia.
    + intros s Hs. destruct (Z.eq_dec s t) as [->|Hne].
      * apply ltb_irrefl.
      * apply leb_false_ltb_false.
        apply (above_the_rest maxProb); [exact Egt|]. apply Hmax. lia.
    + intros s Hs. apply (above_the_rest maxProb); [exact Egt|].
      apply Hmax. lia.
    + now left.
    + intros s Hs. destruct (Z.eq_dec s t) as [->|Hne]; [exact Egt|].
      apply Hmax. lia.
    + exact Hfirst.
    + exact Hval.
Qed.

Lemma scanned_start (logitsData : list number) (offset : Z) :
  scanned logitsData offset 0 NegInf 0.
Proof.
  unfold scanned. split; [intros; lia|]. split; [intros; lia|].
  split; [lia|]. split; right; auto.
Qed.

Lemma argmax_scanned (logitsData : list number) (vocabSize offset : Z) :
  exists maxProb,
    scanned logitsData offset (Z.max 0 (candidates vocabSize)) maxProb
      (argmax logitsData vocabSize offset).
Proof.
  unfold argmax.
  exists (fst (scan logitsData offset (Z.to_nat (candidates vocabSize)) 0 NegInf 0)).
  replace (Z.max 0 (candidates vocabSize))
    with (0 + Z.of_nat (Z.to_nat (candidates vocabSize))) by lia.
  apply scan_keeps_scanned; [lia|apply scanned_start].
Qed.

(** C5.  Among the candidate identifiers [t] in
    [[0, min(vocabSize, 10000))] the decoder selects one, [m], below
    10000, such that no candidate has a greater logit than [m] and no
    candidate before [m] has a logit at least as great: [m] is the lowest
    identifier with the maximal logit.  Where neither logit is [NaN] this
    reads: the logit of [t] is at most that of [m], and less when
    [t < m]. *)
Theorem argmax_selects_first_maximum (logitsData : list number)
  (vocabSize offset t : Z) (Ht : 0 <= t < Z.min vocabSize 10000) :
  let logit := fun id => read logitsData (offset + id) in
  let m := argmax logitsData vocabSize offset in
  0 <= m < Z.min vocabSize 10000
  /\ m < 10000
  /\ gtb (logit t) (logit m) = false
  /\ (t < m -> leb (logit m) (logit t) = false)
  /\ (isNaN (logit t) = false -> isNaN (logit m) = false ->
      leb (logit t) (logit m) = true /\ (t < m -> ltb (logit t) (logit m) = true)).
Proof.
  intros logit m.
  destruct (argmax_scanned logitsData vocabSize offset)
    as (maxProb & Hmax & Hfirst & Hpos & Hrange & Hval).
  fold m in Hfirst, Hpos, Hrange, Hval. unfold candidates in *.
  assert (Hm : 0 <= m < Z.min vocabSize 10000) by lia.
  assert (Hgt : gtb (logit t) (logit m) = false).
  { unfold gtb, logit. destruct Hval as [<-|[-> Hm0]].
    - apply Hmax. lia.
    - rewrite Hm0.
      assert (H0 : ltb NegInf (read logitsData (offset + 0)) = false)
        by (apply Hmax; lia).
      assert (Hs : ltb NegInf (read logitsData (offset + t)) = false)
        by (apply Hmax; lia).
      destruct (read logitsData (offset + 0)), (read logitsData (offset + t));
        simpl in *; congruence. }
  assert (Hlow : t < m -> leb (logit m) (logit t) = false).
  { intros Hlt. unfold logit. destruct Hval as [<-|[_ Hm0]].
    - apply Hfirst. lia.
    - lia. }
  split; [exact Hm|]. split; [lia|]. split; [exact Hgt|]. split; [exact Hlow|].
  intros Nt Nm. split.
  - apply ltb_false_leb; assumption.
  - intros Hlt. apply leb_false_ltb; auto.
Qed.

Lemma argmax_selects_first_maximum_witness :
  let data := [Fin 1; Fin 3; Fin 3; Fin 2] in
  let logit := fun id => read data (0 + id) in
  let m := argmax data 4 0 in
  m = 1
  /\ (0 <= m < Z.min 4 10000
      /\ m < 10000
      /\ gtb (logit 2) (logit m) = false
      /\ (2 < m -> leb (logit m) (logit 2) = false)
      /\ (isNaN (logit 2) = false -> isNaN (logit m) = false ->
          leb (logit 2) (logit m) = true /\ (2 < m -> ltb (logit 2) (logit m) = true))).
Proof.
  split; [reflexivity|].
  apply (argmax_selects_first_maximum [Fin 1; Fin 3; Fin 3; Fin 2] 4 0 2).
  simpl; lia.
Defined.

Lemma decodeLoop_len (logitsData : list number) (vocabSize startIdx maxLength : Z)
  (turns : nat) :
  forall (i : Z) (outputTokens : list Z),
    len (decodeLoop logitsData vocabSize startIdx maxLength turns i outputTokens)
    <= len outputTokens + Z.max 0 (Z.min (Z.of_nat turns) (maxLength - startIdx - i)).
Proof.
  induction turns as [|k IH]; intros i outputTokens; cbn [decodeLoop].
  - lia.
  - destruct (Z.geb_spec (startIdx + i) maxLength) as [Hge|Hlt]; [lia|].
    destruct (_ || _)%bool; [lia|].
    specialize (IH (i + 1)
                  (outputTokens
                   ++ [argmax logitsData vocabSize ((startIdx + i) * vocabSize)])).
    rewrite len_app in IH. unfold len at 3 in IH. simpl length in IH. lia.
Qed.

Lemma decodeLoop_stops (logitsData : list number) (vocabSize startIdx maxLength : Z)
  (turns : nat) (i : Z) (outputTokens : list Z) :
  argmax logitsData vocabSize ((startIdx + i) * vocabSize) = 0
  \/ argmax logitsData vocabSize ((startIdx + i) * vocabSize) = 2 ->
  decodeLoop logitsData vocabSize startIdx maxLength turns i outputTokens = outputTokens.
Proof.
  intros H. destruct turns as [|k]; cbn [decodeLoop]; [reflexivity|].
  destruct (startIdx + i >=? maxLength); [reflexivity|].
  destruct H as [-> | ->]; reflexivity.
Qed.

(** What the scan guarantees of the identifier it selects, seen from one
    candidate [t]. *)
Lemma argmax_compare (logitsData : list number) (vocabSize offset t : Z) :
  0 <= t < Z.min vocabSize 10000 ->
  let logit := fun id => read logitsData (offset + id) in
  let m := argmax logitsData vocabSize offset in
  0 <= m < Z.min vocabSize 10000
  /\ ltb (logit m) (logit t) = false
  /\ (t < m -> leb (logit m) (logit t) = false).
Proof.
  intros Ht logit m.
  destruct (argmax_scanned logitsData vocabSize offset)
    as (maxProb & Hmax & Hfirst & Hpos & Hrange & Hval).
  fold m in Hfirst, Hpos, Hrange, Hval. unfold candidates in *.
  split; [lia|]. split.
  - unfold logit. destruct Hval as [<-|[-> Hm0]].
    + apply Hmax. lia.
    + rewrite Hm0.
      assert (H0 : ltb NegInf (read logitsData (offset + 0)) = false)
        by (apply Hmax; lia).
      assert (Hs : ltb NegInf (read logitsData (offset + t)) = false)
        by (apply Hmax; lia).
      destruct (read logitsData (offset + 0)), (read logitsData (offset + t));
        simpl in *; congruence.
  - intros Hlt. unfold logit. destruct Hval as [<-|[_ Hm0]]; [|lia].
    apply Hfirst. lia.
Qed.

(** The identifier that holds the maximum of its row is the one
    selected: no other candidate has a greater logit, and the candidates
    before it have a smaller one. *)
Lemma argmax_at_maximum (logitsData : list number) (vocabSize offset e : Z) :
  let logit := fun id => read logitsData (offset + id) in
  0 <= e < Z.min vocabSize 10000 ->
  (forall t, 0 <= t < Z.min vocabSize 10000 -> t <> e ->
             leb (logit t) (logit e) = true) ->
  (forall t, 0 <= t < e -> ltb (logit t) (logit e) = true) ->
  argmax logitsData vocabSize offset = e.
Proof.
  intros logit He Hmax Hbefore.
  destruct (argmax_compare logitsData vocabSize offset e He) as (Hm & Hgt & Hlow).
  cbv beta zeta in Hm, Hgt, Hlow.
  destruct (Z.eq_dec (argmax logitsData vocabSize offset) e) as [Heq|Hne];
    [exact Heq|exfalso].
  destruct (Z_lt_le_dec e (argmax logitsData vocabSize offset)) as [Hlt|Hle].
  - specialize (Hlow Hlt). pose proof (Hmax _ Hm Hne) as H.
    unfold logit in H. congruence.
  - assert (H : ltb (logit (argmax logitsData vocabSize offset)) (logit e) = true)
      by (apply Hbefore; lia).
    unfold logit in H. congruence.
Qed.

(** C6, as the code has it.  For every logits tensor, start position and
    bounds, the decode loop ends with an output sequence whose length lies
    in [[0, max(0, min(maxNewTokens, maxLength - startIdx))]]; this is the
    interval [[0, min(maxNewTokens, maxLength - startIdx)]] whenever that
    interval is not empty.  When the maximum logit at [startIdx] is at the
    unknown identifier 0 or at the end-of-sequence identifier 2 (no other
    candidate has a greater logit, and the candidates before it have a
    smaller one), the output is empty. *)
Theorem decode_length_bounded (logitsData : list number)
  (vocabSize startIdx maxLength maxNewTokens : Z) :
  let out := decode logitsData vocabSize startIdx maxLength maxNewTokens in
  let logit := fun id => read logitsData (startIdx * vocabSize + id) in
  0 <= len out <= Z.max 0 (Z.min maxNewTokens (maxLength - startIdx))
  /\ (0 <= Z.min maxNewTokens (maxLength - startIdx) ->
      0 <= len out <= Z.min maxNewTokens (maxLength - startIdx))
  /\ (forall e, e = 0 \/ e = 2 ->
        0 <= e < Z.min vocabSize 10000 ->
        (forall t, 0 <= t < Z.min vocabSize 10000 -> t <> e ->
                   leb (logit t) (logit e) = true) ->
        (forall t, 0 <= t < e -> ltb (logit t) (logit e) = true) ->
        out = []).
Proof.
  intros out logit.
  assert (Hlen : 0 <= len out <= Z.max 0 (Z.min maxNewTokens (maxLength - startIdx))).
  { split; [apply len_nonneg|]. unfold out, decode.
    pose proof (decodeLoop_len logitsData vocabSize startIdx maxLength
                  (Z.to_nat maxNewTokens) 0 []) as H.
    unfold len at 2 in H. simpl length in H. lia. }
  split; [exact Hlen|]. split; [lia|].
  intros e Hstop He Hmax Hbefore. unfold out, decode. apply decodeLoop_stops.
  rewrite Z.add_0_r.
  rewrite (argmax_at_maximum logitsData vocabSize (startIdx * vocabSize) e He Hmax Hbefore).
  exact Hstop.
Qed.

Lemma decode_length_bounded_witness :
  let data := [Fin 0; Fin 1; Fin 5; Fin 2] in
  let out := decode data 4 0 1 100 in
  0 <= len out <= Z.max 0 (Z.min 100 (1 - 0))
  /\ (0 <= len out <= Z.min 100 (1 - 0))
  /\ out = [].
Proof.
  pose proof (decode_length_bounded [Fin 0; Fin 1; Fin 5; Fin 2] 4 0 1 100)
    as (H1 & H2 & H3).
  split; [exact H1|]. split.
  - apply H2. simpl. lia.
  - apply (H3 2).
    + right. reflexivity.
    + simpl. lia.
    + intros t Ht Hne.
      assert (Ht' : t = 0 \/ t = 1 \/ t = 3) by (simpl in Ht; lia).
      destruct Ht' as [-> | [-> | ->]]; reflexivity.
    + intros t Ht.
      assert (Ht' : t = 0 \/ t = 1) by lia.
      destruct Ht' as [-> | ->]; reflexivity.
Defined.

(** Two tokens are produced from a tensor of four rows of width 4 before
    the end-of-sequence identifier is selected. *)
Example decode_sample :
  decode [Fin 0; Fin 0; Fin 0; Fin 0;
          Fin 0; Fin 1; Fin 0; Fin 0;
          Fin 0; Fin 0; Fin 0; Fin 9;
          Fin 0; Fin 0; Fin 2; Fin 0] 4 1 4 100
  = [1; 3].
Proof. vm_compute. reflexivity. Qed.

(** C6, as it is worded, fails for a start position beyond [maxLength]
    (a prompt of 513 tokens): the output is empty, and its length 0 is not
    in [[0, min(100, 512 - 513)]]. *)
Lemma decode_length_beyond_maxLength :
  ~ (forall (logitsData : list number) (vocabSize startIdx maxLength maxNewTokens : Z),
       0 <= len (decode logitsData vocabSize startIdx maxLength maxNewTokens)
       <= Z.min maxNewTokens (maxLength - startIdx)).
Proof.
  intros H. specialize (H [] 1 513 512 100).
  vm_compute in H. destruct H as [_ H]. apply H. reflexivity.
Qed.

End DecoderFacts.

(* ===================================================================== *)
(** ** Properties of the model acquirer *)
(* ===================================================================== *)

Section AcquirerFacts.

Lemma downloadModel_cached (content : list Z) (net : network) :
  downloadModel (Some content) net
  = {| settled := Resolved; after := Some content; requests := 0 |}.
Proof. reflexivity. Qed.

Lemma downloadModel_resolved_caches (d : disk) (net : network) :
  settled (downloadModel d net) = Resolved ->
  exists content, after (downloadModel d net) = Some content.
Proof.
  destruct d as [content|]; [intros _; now exists content|].
  unfold downloadModel, start, finish.
  destruct (first net) as [e|statusCode body]; simpl; [discriminate|].
  destruct (_ || _)%bool; [|intros _; now exists body].
  destruct (redirected net) as [e|statusCode' body']; simpl; [discriminate|].
  intros _. now exists body'.
Qed.

(** C9.  When a file exists at the cache path, [downloadModel] resolves
    at once, leaves the file as it is and sends no request; hence a call
    that follows a successful call sends no request either. *)
Theorem downloadModel_cached_no_network (d : disk) (net net' : network) :
  (forall content, d = Some content ->
     downloadModel d net = {| settled := Resolved; after := d; requests := 0 |})
  /\ (settled (downloadModel d net) = Resolved ->
      downloadModel (after (downloadModel d net)) net'
      = {| settled := Resolved; after := after (downloadModel d net); requests := 0 |}).
Proof.
  split.
  - intros content ->. apply downloadModel_cached.
  - intros H. destruct (downloadModel_resolved_caches d net H) as [content ->].
    apply downloadModel_cached.
Qed.

Definition releaseNet : network :=
  {| first := Response 302 []; redirected := Response 200 [79; 78; 78; 88] |}.

Lemma downloadModel_cached_no_network_witness :
  downloadModel (Some [1; 2]) releaseNet
  = {| settled := Resolved; after := Some [1; 2]; requests := 0 |}
  /\ downloadModel (after (downloadModel None releaseNet)) releaseNet
     = {| settled := Resolved; after := after (downloadModel None releaseNet);
          requests := 0 |}.
Proof.
  split.
  - apply (proj1 (downloadModel_cached_no_network (Some [1; 2]) releaseNet releaseNet)
             [1; 2] eq_refl).
  - apply (proj2 (downloadModel_cached_no_network None releaseNet releaseNet)).
    reflexivity.
Defined.

Definition brokenRedirect : network :=
  {| first := Response 302 []; redirected := RequestError "ECONNRESET" |}.

Definition brokenFirst : network :=
  {| first := RequestError "ECONNRESET"; redirected := Response 200 [] |}.

(** C3 at a request error on the redirect hop.  The promise is rejected
    while the empty file made by [fs.createWriteStream] stays at the cache
    path, and the next call takes that file for the cached model without
    any request.  An error on the first hop, by contrast, removes the
    file. *)
Theorem downloadModel_redirect_error_keeps_file :
  downloadModel None brokenRedirect
  = {| settled := Rejected "ECONNRESET"; after := Some []; requests := 2 |}
  /\ downloadModel (after (downloadModel None brokenRedirect)) releaseNet
     = {| settled := Resolved; after := Some []; requests := 0 |}
  /\ downloadModel None brokenFirst
     = {| settled := Rejected "ECONNRESET"; after := None; requests := 1 |}.
Proof. repeat split. Qed.

End AcquirerFacts.

(* ===================================================================== *)
(** ** Properties of the session manager *)
(* ===================================================================== *)

Section SessionFacts.

(** Two requests call [getSession()] before the download has ended; then
    the download ends well and the two session constructions end. *)
Definition twoCallers : list event :=
  [Call 0; Call 1; DownloadEnds 0 releaseNet; CreateEnds 1 true; CreateEnds 3 true].

(** C1 at two concurrent first-time callers.  The model is fetched once,
    but [InferenceSession.create] is called twice, and the two callers
    return two different session objects: the second caller wakes up from
    line 57 while the first is still inside [create], finds [session]
    empty at line 58 and goes on to lines 62-67 itself. *)
Theorem getSession_two_callers_two_sessions :
  exists s : state,
    run twoCallers (init 2) = Some s
    /\ fetches s = 1%nat
    /\ creates s = 2%nat
    /\ callers s = [Returned 1; Returned 3]
    /\ session s = Some 3%nat.
Proof. eexists. vm_compute. repeat split. Qed.

(** One caller alone fetches once and creates once, and a caller that
    comes after the session is published gets that session. *)
Example getSession_sequential :
  exists s : state,
    run [Call 0; DownloadEnds 0 releaseNet; CreateEnds 1 true; Call 1] (init 2) = Some s
    /\ fetches s = 1%nat /\ creates s = 1%nat
    /\ callers s = [Returned 1; Returned 1].
Proof. eexists. vm_compute. repeat split. Qed.

(** With three concurrent callers the session is constructed three
    times. *)
Example getSession_three_callers :
  exists s : state,
    run [Call 0; Call 1; Call 2; DownloadEnds 0 releaseNet;
         CreateEnds 1 true; CreateEnds 4 true; CreateEnds 5 true] (init 3) = Some s
    /\ fetches s = 1%nat /\ creates s = 3%nat
    /\ callers s = [Returned 1; Returned 4; Returned 5].
Proof. eexists. vm_compute. repeat split. Qed.

(** A failed download leaves the rejected promise in [modelLoading]: the
    caller throws, and so does a caller that comes later. *)
Example getSession_after_failure :
  exists s : state,
    run [Call 0; DownloadEnds 0 brokenFirst; Call 1] (init 2) = Some s
    /\ callers s = [Threw; Threw] /\ creates s = 0%nat.
Proof. eexists. vm_compute. repeat split. Qed.

End SessionFacts.

(* ===================================================================== *)
(** ** Properties of the POST handler *)
(* ===================================================================== *)

Section HandlerFacts.

Lemma answer_not_400 (w : world) (q : ustring) : status (answer w q) <> 400.
Proof.
  unfold answer. destruct (sessionFailure w); [discriminate|].
  destruct (inputIds _); [|discriminate].
  destruct (forward w _ _); discriminate.
Qed.

Lemma json_null_dec (v : json) : {v = JNull} + {v <> JNull}.
Proof. destruct v; (now left) || (right; discriminate). Qed.

(** The test of line 124 lets exactly the non-empty strings through. *)
Lemma POST_cases (w : world) (v : json) :
  v <> JNull ->
  (exists q, questionOf v = Some (JString q) /\ q <> [] /\ POST w (Some v) = answer w q)
  \/ ((forall q, questionOf v = Some (JString q) -> q = [])
      /\ POST w (Some v) = Json400 required).
Proof.
  intros Hv. unfold POST.
  destruct (questionOf v) as [[| b | x | s | items | members]|] eqn:E;
    try (right; split; [intros q' [=]|];
         destruct v; try congruence; cbn [falsy notString orb];
         rewrite ?orb_true_r; reflexivity).
  destruct s as [|c s].
  - right. split; [now intros q' [= <-]|]. destruct v; try congruence; reflexivity.
  - left. exists (c :: s). split; [reflexivity|]. split; [discriminate|].
    destruct v; try congruence; reflexivity.
Qed.

Lemma question_unusable (v : json) :
  (forall q, questionOf v = Some (JString q) -> q = [])
  <-> (questionOf v = None
       \/ (exists x, questionOf v = Some x /\ forall s, x <> JString s)
       \/ questionOf v = Some (JString [])).
Proof.
  destruct (questionOf v) as [x|]; [|split; [now left|intros _ q [=]]].
  split.
  - intros H. destruct x as [| b | n | s | items | members];
      try (right; left; eexists; split; [reflexivity|intros s'; discriminate]).
    right. right. now rewrite (H s eq_refl).
  - intros [[=]|[(x' & [= <-] & Hx)|[= ->]]] q [= Hq].
    + now destruct (Hx q).
    + now subst q.
Qed.

(** C4, as the code has it.  For a body that parses to a value other than
    [null], the handler answers 400, with the [error] field, exactly when
    [question] is missing, is not a string, or is the empty string; a
    non-empty string goes on to session acquisition and inference. *)
Theorem POST_400_iff_question_unusable (w : world) (v : json) (Hv : v <> JNull) :
  (status (POST w (Some v)) = 400 <->
     (questionOf v = None
      \/ (exists x, questionOf v = Some x /\ forall s, x <> JString s)
      \/ questionOf v = Some (JString [])))
  /\ (status (POST w (Some v)) = 400 -> POST w (Some v) = Json400 required)
  /\ (forall q, questionOf v = Some (JString q) -> q <> [] ->
        POST w (Some v) = answer w q).
Proof.
  rewrite <- question_unusable. repeat split.
  - intros H400.
    destruct (POST_cases w v Hv) as [(q & Hq & Hne & HP)|[Hall _]]; [|exact Hall].
    rewrite HP in H400. now apply answer_not_400 in H400.
  - intros Hall.
    destruct (POST_cases w v Hv) as [(q & Hq & Hne & HP)|[_ ->]]; [|reflexivity].
    now apply Hall in Hq.
  - intros H400.
    destruct (POST_cases w v Hv) as [(q & Hq & Hne & HP)|[_ ->]]; [|reflexivity].
    rewrite HP in H400. now apply answer_not_400 in H400.
  - intros q Hq Hne.
    destruct (POST_cases w v Hv) as [(q' & Hq' & _ & HP)|[Hall _]].
    + rewrite Hq in Hq'. now injection Hq' as ->.
    + now apply Hall in Hq.
Qed.

(** A world in which nothing fails: an empty vocabulary, a session that
    is acquired, and a forward pass that returns no logits at all. *)
Definition quietWorld : world :=
  {| vocab := []; sessionFailure := None; forward := fun _ _ => inr [] |}.

Lemma POST_400_iff_question_unusable_witness :
  status (POST quietWorld (Some (JObject []))) = 400
  /\ POST quietWorld (Some (JObject [(of_ascii "question", JString (of_ascii "ahoj"))]))
     = answer quietWorld (of_ascii "ahoj").
Proof.
  split.
  - apply (proj1 (POST_400_iff_question_unusable quietWorld (JObject [])
                    ltac:(discriminate))).
    left. reflexivity.
  - apply (proj2 (proj2 (POST_400_iff_question_unusable quietWorld
             (JObject [(of_ascii "question", JString (of_ascii "ahoj"))])
             ltac:(discriminate)))).
    + reflexivity.
    + discriminate.
Defined.

(** C4, as it is worded, is refuted by the body [{"question": ""}]: the
    field is there and it is a string, and the answer is 400. *)
Lemma POST_400_on_empty_question :
  ~ (forall (w : world) (v : json),
       status (POST w (Some v)) = 400 <->
       (questionOf v = None
        \/ exists x, questionOf v = Some x /\ forall s, x <> JString s)).
Proof.
  intros H.
  destruct (H quietWorld (JObject [(of_ascii "question", JString [])])) as [H400 _].
  destruct (H400 eq_refl) as [Hnone | (x & Hx & Hnot)].
  - discriminate.
  - injection Hx as <-. now apply (Hnot []).
Qed.



(** A question of 512 one-letter words. *)
Definition longQuestion : ustring := concat (repeat (of_ascii "a ") 512).

Definition longBody : json := JObject [(of_ascii "question", JString longQuestion)].




End HandlerFacts.

(* ===================================================================== *)
(** ** Properties of the tokenizer and the detokenizer *)
(* ===================================================================== *)

Section TextFacts.

(** The code units of which words are made once [replaceOther] has run:
    those of [\w] and the fifteen diacritic letters. *)
Definition isLetter (c : N) : bool := (isWord c || isDiacritic c)%bool.

(** A word as the tokenizer sees it. *)
Definition plainWord (w : ustring) : Prop :=
  w <> [] /\ Forall (fun c => isLetter c = true) w.

Ltac unit_cases :=
  unfold isLetter, kept, isWord, isSpace, isDiacritic, diacritics, between in *;
  cbn [existsb] in *;
  repeat match goal with
         | H : _ = false |- _ => apply not_true_iff_false in H
         | |- _ = false => apply not_true_iff_false; intro
         end;
  rewrite ?orb_true_iff, ?andb_true_iff, ?N.leb_le, ?N.eqb_eq in *.

Lemma letter_not_space (c : N) : isLetter c = true -> isSpace c = false.
Proof. intros H. unit_cases. lia. Qed.

Lemma letter_kept (c : N) : isLetter c = true -> kept c = true.
Proof.
  unfold isLetter, kept. intros H. apply orb_true_iff in H.
  destruct H as [->| ->]; [reflexivity|apply orb_true_r].
Qed.

Lemma space_kept : kept 32 = true.
Proof. reflexivity. Qed.

Lemma toLowerCase_app (s s' : ustring) :
  toLowerCase (s ++ s') = toLowerCase s ++ toLowerCase s'.
Proof. apply flat_map_app. Qed.

Lemma lowerUnit_not_nil (c : N) : lowerUnit c <> [].
Proof.
  unfold lowerUnit. destruct (between 65 90 c); [discriminate|].
  destruct (assocN _ _ _); [discriminate|].
  destruct (N.eqb c 304); [discriminate|].
  destruct (N.eqb c 8490); discriminate.
Qed.

Lemma toLowerCase_nil (w : ustring) : toLowerCase w = [] -> w = [].
Proof.
  destruct w as [|c w]; [reflexivity|]. cbn [toLowerCase flat_map].
  intros H. apply app_eq_nil in H. now destruct (lowerUnit_not_nil c).
Qed.

Lemma toLowerCase_join (ws : list ustring) :
  toLowerCase (join space ws) = join space (map toLowerCase ws).
Proof.
  induction ws as [|w [|w' rest] IH]; [reflexivity|reflexivity|].
  change (join space (w :: w' :: rest)) with (w ++ space ++ join space (w' :: rest)).
  rewrite !toLowerCase_app, IH. reflexivity.
Qed.

Lemma replaceOther_letters (w : ustring) :
  Forall (fun c => isLetter c = true) w -> replaceOther w = w.
Proof.
  unfold replaceOther. induction 1 as [|c w Hc _ IH]; [reflexivity|].
  cbn [List.filter]. now rewrite (letter_kept c Hc), IH.
Qed.

Lemma replaceOther_join (ws : list ustring) :
  Forall plainWord ws -> replaceOther (join space ws) = join space ws.
Proof.
  unfold replaceOther.
  induction ws as [|w [|w' rest] IH]; intros Hws; [reflexivity| |].
  - apply replaceOther_letters. now inversion Hws as [|? ? [_ ?] _].
  - change (join space (w :: w' :: rest)) with (w ++ space ++ join space (w' :: rest)).
    rewrite !List.filter_app.
    inversion Hws as [|? ? [_ Hw] Hrest]; subst.
    rewrite IH by assumption.
    now rewrite (replaceOther_letters w Hw : List.filter kept w = w).
Qed.

(** Reading a word moves it into the piece under construction. *)
Lemma splitFrom_word (w : ustring) :
  forall (rest cur : ustring) (inRun : bool),
    plainWord w ->
    splitFrom (w ++ rest) cur inRun = splitFrom rest (rev w ++ cur) false.
Proof.
  induction w as [|c w IH]; intros rest cur inRun [Hne Hw]; [congruence|].
  inversion Hw as [|? ? Hc Hw']; subst.
  cbn [app splitFrom]. rewrite (letter_not_space c Hc).
  destruct w as [|c' w].
  - reflexivity.
  - rewrite IH by (split; [discriminate|assumption]).
    cbn [rev]. now rewrite <- !app_assoc.
Qed.

Lemma split_join (ws : list ustring) :
  Forall plainWord ws -> ws <> [] ->
  forall inRun, List.filter truthy (splitFrom (join space ws) [] inRun) = ws.
Proof.
  induction ws as [|w [|w' rest] IH]; intros Hws Hne inRun; [congruence| |].
  - inversion Hws as [|? ? Hw _]; subst. cbn [join].
    rewrite <- (app_nil_r w) at 1. rewrite splitFrom_word by assumption.
    cbn [splitFrom]. rewrite app_nil_r, rev_involutive.
    destruct Hw as [Hw _]. destruct w; [congruence|reflexivity].
  - inversion Hws as [|? ? Hw Hrest]; subst.
    change (join space (w :: w' :: rest)) with (w ++ space ++ join space (w' :: rest)).
    rewrite splitFrom_word by assumption.
    cbn [space app splitFrom]. change (isSpace 32) with true. cbn iota.
    rewrite app_nil_r, rev_involutive. cbn [List.filter].
    rewrite IH by (assumption || discriminate).
    destruct Hw as [Hw _]. destruct w; [congruence|reflexivity].
Qed.

Lemma words_join (ws : list ustring) :
  Forall plainWord (map toLowerCase ws) ->
  words (join space ws) = map toLowerCase ws.
Proof.
  intros Hws. unfold words, split.
  rewrite toLowerCase_join, replaceOther_join by assumption.
  destruct ws as [|w rest]; [reflexivity|].
  apply split_join; [assumption|discriminate].
Qed.

Lemma ueqb_eq (a b : ustring) : ueqb a b = true <-> a = b.
Proof. unfold ueqb. apply bool_decide_eq_true. Qed.

Lemma own_In (vocab : vocabulary) (word : ustring) (id : Z) :
  own vocab word = Some id -> In (word, id) vocab.
Proof.
  induction vocab as [|[k v] rest IH]; cbn [own]; [discriminate|].
  destruct (ueqb k word) eqn:E.
  - apply ueqb_eq in E. intros [= ->]. left. now subst.
  - intros H. right. now apply IH.
Qed.

Lemma reverseVocab_snoc (vocab : vocabulary) (e : ustring * Z) :
  reverseVocab (vocab ++ [e]) = <[snd e := fst e]> (reverseVocab vocab).
Proof. unfold reverseVocab. now rewrite fold_left_app. Qed.

(** An identifier that a single word carries is mapped back to that
    word. *)
Lemma reverseVocab_unique (vocab : vocabulary) (word : ustring) (id : Z) :
  In (word, id) vocab ->
  (forall word', In (word', id) vocab -> word' = word) ->
  reverseVocab vocab !! id = Some word.
Proof.
  induction vocab as [|[k v] rest IH] using rev_ind; [intros []|].
  intros Hin Huniq. rewrite reverseVocab_snoc. cbn [fst snd].
  destruct (Z.eq_dec v id) as [->|Hne].
  - rewrite lookup_insert_eq. f_equal. apply Huniq.
    apply in_or_app. right. now left.
  - rewrite lookup_insert_ne by assumption. apply IH.
    + apply in_app_or in Hin. destruct Hin as [Hin|[[= <- <-]|[]]]; congruence.
    + intros word' Hin'. apply Huniq, in_or_app. now left.
Qed.

Lemma letters_not_marker (w : ustring) :
  Forall (fun c => isLetter c = true) w -> isMarker w = false.
Proof.
  intros Hw. unfold isMarker, markers. cbn [existsb].
  repeat (apply orb_false_intro); try reflexivity;
    apply not_true_iff_false; intros E; apply ueqb_eq in E; subst w;
    inversion Hw as [|? ? Hc _]; vm_compute in Hc; discriminate.
Qed.

Lemma plainWord_wanted (w : ustring) : plainWord w -> wanted w = true.
Proof.
  intros [Hne Hw]. unfold wanted. rewrite (letters_not_marker w Hw).
  destruct w; [congruence|reflexivity].
Qed.

Lemma trimStart_id (s : ustring) :
  (forall c s', s = c :: s' -> isSpace c = false) -> trimStart s = s.
Proof.
  destruct s as [|c s]; [reflexivity|]. intros H. cbn [trimStart].
  now rewrite (H c s eq_refl).
Qed.

Lemma join_first (w : ustring) (rest : list ustring) :
  plainWord w ->
  exists c s, join space (w :: rest) = c :: s /\ isSpace c = false.
Proof.
  intros [Hne Hw]. destruct w as [|c w]; [congruence|].
  inversion Hw as [|? ? Hc _]; subst.
  destruct rest as [|w' rest]; cbn [join app]; eexists _, _;
    (split; [reflexivity|now apply letter_not_space]).
Qed.

Lemma join_last (ws : list ustring) :
  Forall plainWord ws -> ws <> [] ->
  exists s c, join space ws = s ++ [c] /\ isSpace c = false.
Proof.
  induction ws as [|w [|w' rest] IH]; intros Hws Hne; [congruence| |].
  - inversion Hws as [|? ? [Hw Hall] _]; subst. cbn [join].
    destruct (exists_last Hw) as (s & c & ->).
    exists s, c. split; [reflexivity|].
    apply Forall_app in Hall. destruct Hall as [_ Hc].
    inversion Hc; subst. now apply letter_not_space.
  - inversion Hws as [|? ? _ Hrest]; subst.
    destruct (IH Hrest ltac:(discriminate)) as (s & c & Heq & Hc).
    change (join space (w :: w' :: rest)) with (w ++ space ++ join space (w' :: rest)).
    rewrite Heq. exists (w ++ space ++ s), c.
    split; [now rewrite <- !app_assoc|exact Hc].
Qed.

Lemma trim_join (ws : list ustring) :
  Forall plainWord ws -> trim (join space ws) = join space ws.
Proof.
  intros Hws. destruct ws as [|w rest]; [reflexivity|]. unfold trim.
  assert (Hfront : trimStart (join space (w :: rest)) = join space (w :: rest)).
  { apply trimStart_id. inversion Hws as [|? ? Hw _]; subst.
    destruct (join_first w rest Hw) as (c & s & -> & Hc).
    now intros c' s' [= <- <-]. }
  rewrite Hfront.
  destruct (join_last (w :: rest) Hws ltac:(discriminate)) as (s & c & -> & Hc).
  rewrite rev_app_distr. cbn [rev app trimStart]. rewrite Hc.
  cbn [rev]. now rewrite rev_involutive.
Qed.

(** What the claim asks of one word, read on its lower-case form: it is
    made of letters only, it is a key of the vocabulary, and no other key
    carries its identifier. *)
Definition roundTrips (vocab : vocabulary) (w : ustring) : Prop :=
  plainWord (toLowerCase w)
  /\ exists id, own vocab (toLowerCase w) = Some id
                /\ forall word', In (word', id) vocab -> word' = toLowerCase w.

Lemma roundTrips_plain (vocab : vocabulary) (ws : list ustring) :
  Forall (roundTrips vocab) ws -> Forall plainWord (map toLowerCase ws).
Proof.
  induction 1 as [|w ws [Hw _] _ IH]; cbn [map]; constructor; assumption.
Qed.

Lemma keepWanted_tokens (vocab : vocabulary) (ws : list ustring) :
  Forall (roundTrips vocab) ws ->
  keepWanted
    (map (reverseGet (reverseVocab vocab))
       (map (fun word => match get vocab word with
                         | Some t => t
                         | None => Id 0
                         end) (map toLowerCase ws)))
  = map toLowerCase ws.
Proof.
  induction 1 as [|w ws (Hplain & id & Hown & Huniq) _ IH]; [reflexivity|].
  cbn [map]. unfold get at 1. rewrite Hown. cbn [reverseGet].
  rewrite (reverseVocab_unique vocab (toLowerCase w) id (own_In _ _ _ Hown) Huniq).
  cbn [keepWanted]. rewrite (plainWord_wanted _ Hplain). now rewrite IH.
Qed.

(** C8, as the code has it.  For every sequence of words whose lower-case
    forms are not empty, are made only of the code units that the
    tokenizer keeps in a word, are keys of the vocabulary and carry
    identifiers that no other key carries, detokenizing the tokens of the
    words joined by single spaces gives back the lower-case words, in
    order, joined by single spaces. *)
Theorem detokenize_tokenize_round_trip (vocab : vocabulary) (ws : list ustring) :
  Forall (roundTrips vocab) ws ->
  detokenize vocab (tokenize vocab (join space ws))
  = join space (map toLowerCase ws).
Proof.
  intros Hws. pose proof (roundTrips_plain vocab ws Hws) as Hplain.
  unfold detokenize, tokenize. rewrite words_join by assumption.
  rewrite keepWanted_tokens by assumption.
  now apply trim_join.
Qed.

Example tokenize_sample :
  tokenize [(of_ascii "ahoj", 5); (of_ascii "svete", 7)]
    (of_ascii "  Ahoj,  SVETE! constructor x ")
  = [Id 5; Id 7; Inherited; Id 0].
Proof. vm_compute. reflexivity. Qed.

Example detokenize_sample :
  detokenize [(of_ascii "ahoj", 5); (of_ascii "svete", 7); (of_ascii "<unk>", 0)]
    [Id 5; Id 0; Id 7; Id 9]
  = of_ascii "ahoj svete".
Proof. vm_compute. reflexivity. Qed.

Definition greeting : vocabulary :=
  [(of_ascii "<unk>", 0); (of_ascii "ahoj", 5); (of_ascii "sv" ++ [283%N] ++ of_ascii "te", 7)].

Lemma detokenize_tokenize_round_trip_witness :
  let ws := [of_ascii "Ahoj"; of_ascii "SV" ++ [282%N] ++ of_ascii "TE"] in
  detokenize greeting (tokenize greeting (join space ws))
  = of_ascii "ahoj sv" ++ [283%N] ++ of_ascii "te".
Proof.
  intros ws.
  change (of_ascii "ahoj sv" ++ [283%N] ++ of_ascii "te")
    with (join space (map toLowerCase ws)).
  apply (detokenize_tokenize_round_trip greeting ws).
  repeat constructor; try discriminate;
    try (eexists; split; [reflexivity|]; cbn [In greeting];
         intros word' H; repeat destruct H as [[= <-]|H]; tauto || discriminate).
Defined.

(** C8, as it is worded, is refuted by a vocabulary whose only key is
    [Ahoj], written with a capital: the word is in the vocabulary, its
    identifier has one reverse image and it is no marker, but the
    tokenizer looks up [ahoj], finds nothing, and the round trip yields
    the empty string. *)
Lemma detokenize_tokenize_capital_key :
  ~ (forall (vocab : vocabulary) (ws : list ustring),
       Forall (fun w => w <> []
                        /\ isMarker w = false
                        /\ exists id, own vocab w = Some id
                                      /\ forall word', In (word', id) vocab -> word' = w) ws ->
       detokenize vocab (tokenize vocab (join space ws))
       = join space (map toLowerCase ws)).
Proof.
  intros H.
  specialize (H [(of_ascii "Ahoj", 5)] [of_ascii "Ahoj"]).
  assert (Hround : detokenize [(of_ascii "Ahoj", 5)]
                     (tokenize [(of_ascii "Ahoj", 5)] (join space [of_ascii "Ahoj"]))
                   = of_ascii "ahoj").
  { apply H. constructor; [|constructor].
    split; [discriminate|]. split; [reflexivity|].
    exists 5. split; [reflexivity|].
    intros word' [[= <-]|[]]. reflexivity. }
  vm_compute in Hround. discriminate.
Qed.

End TextFacts.

(* ===================================================================== *)
(** ** Further properties of the tokenizer *)
(* ===================================================================== *)

Section TokenizerFacts.

Ltac eqb_cases :=
  repeat match goal with
         | |- context [N.eqb ?a ?b] => destruct (N.eqb_spec a b); [try lia|]
         end.

(** A code unit below the capital diacritic letters that is no ASCII
    capital is its own lower-case form. *)
Lemma lowerUnit_low (c : N) :
  (c < 193)%N -> between 65 90 c = false -> lowerUnit c = [c].
Proof.
  intros Hc Hb. unfold lowerUnit. rewrite Hb.
  cbn [assocN capitalDiacritics diacritics]. eqb_cases. reflexivity.
Qed.

Lemma lowerUnit_idem (c : N) : flat_map lowerUnit (lowerUnit c) = lowerUnit c.
Proof.
  destruct (between 65 90 c) eqn:Hb.
  - unfold lowerUnit at 2 3. rewrite Hb. cbn [flat_map]. rewrite app_nil_r.
    unfold between in Hb. apply andb_true_iff in Hb.
    rewrite !N.leb_le in Hb. apply lowerUnit_low; [lia|].
    unfold between. apply andb_false_iff. right. apply N.leb_gt. lia.
  - unfold lowerUnit at 2 3. rewrite Hb.
    cbn [assocN capitalDiacritics diacritics].
    repeat match goal with
           | |- context [N.eqb c ?b] =>
               destruct (N.eqb_spec c b); [subst c; vm_compute; reflexivity|]
           end.
    cbn [flat_map]. rewrite app_nil_r. unfold lowerUnit. rewrite Hb.
    cbn [assocN capitalDiacritics diacritics]. eqb_cases. reflexivity.
Qed.

Lemma toLowerCase_idem (s : ustring) : toLowerCase (toLowerCase s) = toLowerCase s.
Proof.
  induction s as [|c s IH]; [reflexivity|].
  change (toLowerCase (c :: s)) with (lowerUnit c ++ toLowerCase s).
  rewrite toLowerCase_app, IH. unfold toLowerCase at 1.
  now rewrite lowerUnit_idem.
Qed.

(** X1.  Tokenizing does not depend on the case of the text. *)
Theorem tokenize_ignores_case (vocab : vocabulary) (text : ustring) :
  tokenize vocab (toLowerCase text) = tokenize vocab text.
Proof. unfold tokenize, words. now rewrite toLowerCase_idem. Qed.

Lemma replaceOther_app (s s' : ustring) :
  replaceOther (s ++ s') = replaceOther s ++ replaceOther s'.
Proof. apply List.filter_app. Qed.

Lemma replaceOther_dropped (s : ustring) :
  Forall (fun u => kept u = false) s -> replaceOther s = [].
Proof.
  unfold replaceOther. induction 1 as [|u s Hu _ IH]; [reflexivity|].
  cbn [List.filter]. now rewrite Hu.
Qed.

(** X2.  A code unit that the tokenizer deletes does not separate words: the
    text around it is read as if the unit were not there, so that the
    letters on its two sides end up in one word. *)
Theorem tokenize_deleted_unit_joins (vocab : vocabulary) (s1 s2 : ustring) (c : N) :
  Forall (fun u => kept u = false) (lowerUnit c) ->
  tokenize vocab (s1 ++ c :: s2) = tokenize vocab (s1 ++ s2).
Proof.
  intros Hc. unfold tokenize, words. f_equal. f_equal. f_equal.
  change (c :: s2) with ([c] ++ s2).
  rewrite !toLowerCase_app, !replaceOther_app.
  unfold toLowerCase at 2. cbn [flat_map]. rewrite app_nil_r.
  now rewrite (replaceOther_dropped _ Hc).
Qed.

Lemma tokenize_deleted_unit_joins_witness :
  tokenize [(of_ascii "dont", 4)] (of_ascii "don" ++ 39%N :: of_ascii "t")
  = tokenize [(of_ascii "dont", 4)] (of_ascii "don" ++ of_ascii "t")
  /\ tokenize [(of_ascii "dont", 4)] (of_ascii "don" ++ of_ascii "t") = [Id 4].
Proof.
  split; [|reflexivity].
  apply (tokenize_deleted_unit_joins [(of_ascii "dont", 4)] (of_ascii "don")
           (of_ascii "t") 39%N).
  repeat constructor.
Defined.

Lemma splitFrom_spaces (s : ustring) :
  Forall (fun u => isSpace u = true) s ->
  forall inRun, List.filter truthy (splitFrom s [] inRun) = [].
Proof.
  induction 1 as [|u s Hu _ IH]; intros inRun; [reflexivity|].
  cbn [splitFrom]. rewrite Hu. destruct inRun; cbn [rev List.filter truthy]; apply IH.
Qed.

Lemma kept_not_letter_space (u : N) :
  kept u = true -> isLetter u = false -> isSpace u = true.
Proof.
  unfold kept, isLetter. destruct (isWord u), (isSpace u), (isDiacritic u);
    cbn; congruence.
Qed.

Lemma replaceOther_spaces (s : ustring) :
  Forall (fun u => isLetter u = false) s ->
  Forall (fun u => isSpace u = true) (replaceOther s).
Proof.
  unfold replaceOther. induction 1 as [|u s Hu _ IH]; [constructor|].
  cbn [List.filter]. destruct (kept u) eqn:Hk; [|exact IH].
  constructor; [now apply kept_not_letter_space|exact IH].
Qed.

Lemma toLowerCase_Forall (P : N -> Prop) (s : ustring) :
  Forall (fun c => Forall P (lowerUnit c)) s -> Forall P (toLowerCase s).
Proof.
  induction 1 as [|c s Hc _ IH]; [constructor|].
  change (toLowerCase (c :: s)) with (lowerUnit c ++ toLowerCase s).
  apply Forall_app. now split.
Qed.

(** X3.  A text without any letter, digit or underscore (the empty text, white
    space, punctuation) has no tokens. *)
Theorem tokenize_without_letters (vocab : vocabulary) (text : ustring) :
  Forall (fun c => Forall (fun u => isLetter u = false) (lowerUnit c)) text ->
  tokenize vocab text = [].
Proof.
  intros H. unfold tokenize, words, split.
  rewrite splitFrom_spaces; [reflexivity|].
  apply replaceOther_spaces. now apply toLowerCase_Forall.
Qed.

Lemma tokenize_without_letters_witness :
  tokenize [(of_ascii "a", 1)] (of_ascii " ?! ... ") = [].
Proof.
  apply (tokenize_without_letters [(of_ascii "a", 1)] (of_ascii " ?! ... ")).
  repeat constructor.
Defined.

(** X4.  Every token is the identifier that the vocabulary gives to one of the
    words of the text, or 0, or the inherited object, which can only come
    from the words [constructor] and [__proto__]. *)
Theorem tokenize_tokens (vocab : vocabulary) (text : ustring) (t : token) :
  In t (tokenize vocab text) ->
  (exists word n, t = Id n /\ In word (words text) /\ In (word, n) vocab)
  \/ t = Id 0
  \/ (t = Inherited /\ exists word, In word (words text) /\ In word inheritedNames
                                    /\ own vocab word = None).
Proof.
  unfold tokenize. intros H. apply in_map_iff in H. destruct H as (word & <- & Hword).
  unfold get. destruct (own vocab word) as [n|] eqn:Hown.
  - left. exists word, n. split; [reflexivity|]. split; [exact Hword|].
    now apply own_In.
  - destruct (inherited word) eqn:Hinh; [|now right; left].
    right. right. split; [reflexivity|]. exists word.
    split; [exact Hword|]. split; [|exact Hown].
    unfold inherited in Hinh. apply existsb_exists in Hinh.
    destruct Hinh as (name & Hname & Heq). apply ueqb_eq in Heq. now subst.
Qed.

Lemma tokenize_tokens_witness :
  (exists word n, Inherited = Id n /\ In word (words (of_ascii "My constructor"))
                  /\ In (word, n) [(of_ascii "my", 3)])
  \/ Inherited = Id 0
  \/ (Inherited = Inherited
      /\ exists word, In word (words (of_ascii "My constructor"))
                      /\ In word inheritedNames
                      /\ own [(of_ascii "my", 3)] word = None).
Proof.
  apply (tokenize_tokens [(of_ascii "my", 3)] (of_ascii "My constructor") Inherited).
  vm_compute. right. left. reflexivity.
Defined.

End TokenizerFacts.

(* ===================================================================== *)
(** ** Words on the two sides of white space, and the prompt *)
(* ===================================================================== *)

Section PromptFacts.

Lemma splitFrom_flag (s : ustring) :
  List.filter truthy (splitFrom s [] true) = List.filter truthy (splitFrom s [] false).
Proof.
  destruct s as [|c s]; [reflexivity|]. cbn [splitFrom].
  destruct (isSpace c); reflexivity.
Qed.

Lemma splitFrom_at_space (a b : ustring) (c : N) :
  isSpace c = true ->
  forall (cur : ustring) (inRun : bool),
    (inRun = true -> cur = []) ->
    List.filter truthy (splitFrom (a ++ c :: b) cur inRun)
    = List.filter truthy (splitFrom a cur inRun)
      ++ List.filter truthy (splitFrom b [] false).
Proof.
  intros Hc. induction a as [|x a IH]; intros cur inRun Hcur.
  - cbn [app splitFrom]. rewrite Hc. rewrite <- splitFrom_flag.
    destruct inRun.
    + rewrite (Hcur eq_refl). reflexivity.
    + cbn [List.filter]. destruct (truthy (rev cur)); reflexivity.
  - cbn [app splitFrom]. destruct (isSpace x).
    + destruct inRun.
      * apply IH. reflexivity.
      * cbn [List.filter]. rewrite IH by reflexivity.
        destruct (truthy (rev cur)); reflexivity.
    + apply IH. discriminate.
Qed.

Lemma lowerUnit_space (c : N) : isSpace c = true -> lowerUnit c = [c].
Proof.
  intros Hc. unfold lowerUnit.
  assert (Hb : between 65 90 c = false).
  { unfold isSpace, between in *. apply not_true_iff_false. intros Hb.
    rewrite ?orb_true_iff, ?andb_true_iff, ?N.leb_le, ?N.eqb_eq in *. lia. }
  rewrite Hb. cbn [assocN capitalDiacritics diacritics].
  unfold isSpace, between in Hc.
  rewrite ?orb_true_iff, ?andb_true_iff, ?N.leb_le, ?N.eqb_eq in Hc.
  repeat match goal with
         | |- context [N.eqb ?a ?b] => destruct (N.eqb_spec a b); [lia|]
         end.
  reflexivity.
Qed.

Lemma words_at_space (a b : ustring) (c : N) :
  isSpace c = true -> words (a ++ c :: b) = words a ++ words b.
Proof.
  intros Hc. unfold words, split.
  change (c :: b) with ([c] ++ b).
  rewrite !toLowerCase_app, !replaceOther_app.
  unfold toLowerCase at 2. cbn [flat_map]. rewrite app_nil_r.
  rewrite (lowerUnit_space c Hc). unfold replaceOther at 2. cbn [List.filter].
  assert (Hk : kept c = true).
  { unfold kept. rewrite Hc. now rewrite orb_true_r. }
  rewrite Hk. cbn [app]. apply splitFrom_at_space; [exact Hc|discriminate].
Qed.

(** X5.  White space separates: the tokens of a text with a white-space unit
    in it are the tokens before the unit followed by the tokens after
    it. *)
Theorem tokenize_at_space (vocab : vocabulary) (a b : ustring) (c : N) :
  isSpace c = true ->
  tokenize vocab (a ++ c :: b) = tokenize vocab a ++ tokenize vocab b.
Proof.
  intros Hc. unfold tokenize. rewrite (words_at_space a b c Hc).
  apply map_app.
Qed.

Lemma tokenize_at_space_witness :
  tokenize [(of_ascii "b", 2)] (of_ascii "a" ++ 10%N :: of_ascii "b")
  = tokenize [(of_ascii "b", 2)] (of_ascii "a") ++ tokenize [(of_ascii "b", 2)] (of_ascii "b").
Proof.
  apply (tokenize_at_space [(of_ascii "b", 2)] (of_ascii "a") (of_ascii "b") 10%N).
  reflexivity.
Defined.

(** The two words that the prompt puts around the question. *)
Definition wordBefore : ustring := of_ascii "ot" ++ [225%N] ++ of_ascii "zka".

Definition wordAfter : ustring := of_ascii "odpov" ++ [283%N; 271%N].

Definition tokenOf (vocab : vocabulary) (word : ustring) : token :=
  match get vocab word with
  | Some t => t
  | None => Id 0
  end.

Lemma words_prompt (question : ustring) :
  words (prompt question) = wordBefore :: words question ++ [wordAfter].
Proof.
  unfold prompt, promptHead, promptTail.
  replace ((of_ascii "Ot" ++ [225%N] ++ of_ascii "zka: ") ++
           question ++ [10%N] ++ of_ascii "Odpov" ++ [283%N; 271%N] ++ of_ascii ":")
    with ((of_ascii "Ot" ++ [225%N] ++ of_ascii "zka:") ++ 32%N ::
          (question ++ 10%N :: (of_ascii "Odpov" ++ [283%N; 271%N] ++ of_ascii ":")))
    by reflexivity.
  rewrite !words_at_space by reflexivity. reflexivity.
Qed.

(** X6.  The prompt adds exactly two tokens to those of the question, one in
    front and one behind, so that [input_tokens] is the number of words of
    the question plus two. *)
Theorem tokenize_prompt (vocab : vocabulary) (question : ustring) :
  tokenize vocab (prompt question)
  = tokenOf vocab wordBefore :: tokenize vocab question ++ [tokenOf vocab wordAfter]
  /\ len (tokenize vocab (prompt question)) = len (tokenize vocab question) + 2.
Proof.
  assert (H : tokenize vocab (prompt question)
              = tokenOf vocab wordBefore :: tokenize vocab question
                ++ [tokenOf vocab wordAfter]).
  { unfold tokenize. rewrite words_prompt. cbn [map]. rewrite map_app. reflexivity. }
  split; [exact H|]. rewrite H. unfold len. cbn [length].
  rewrite length_app. cbn [length]. lia.
Qed.

End PromptFacts.

(* ===================================================================== *)
(** ** Further properties of the detokenizer *)
(* ===================================================================== *)

Section DetokenizerFacts.

Lemma reverseVocab_absent (vocab : vocabulary) (id : Z) :
  ~ In id (map snd vocab) -> reverseVocab vocab !! id = None.
Proof.
  induction vocab as [|e vocab IH] using rev_ind; intros Hid; [reflexivity|].
  rewrite reverseVocab_snoc. rewrite map_app, in_app_iff in Hid.
  rewrite lookup_insert_ne.
  - apply IH. tauto.
  - intros Heq. apply Hid. right. left. exact Heq.
Qed.

Lemma reverseVocab_present (vocab : vocabulary) (id : Z) :
  In id (map snd vocab) -> exists word, reverseVocab vocab !! id = Some word.
Proof.
  induction vocab as [|e vocab IH] using rev_ind; [intros []|].
  intros Hid. rewrite reverseVocab_snoc.
  destruct (Z.eq_dec (snd e) id) as [<-|Hne].
  - exists (fst e). apply lookup_insert_eq.
  - rewrite lookup_insert_ne by assumption. apply IH.
    rewrite map_app, in_app_iff in Hid. destruct Hid as [Hid|[Hid|[]]]; [exact Hid|].
    now destruct Hne.
Qed.

Lemma reverseVocab_last (before behind : vocabulary) (word : ustring) (id : Z) :
  ~ In id (map snd behind) ->
  reverseVocab (before ++ (word, id) :: behind) !! id = Some word.
Proof.
  induction behind as [|e behind IH] using rev_ind; intros Hid.
  - rewrite reverseVocab_snoc. apply lookup_insert_eq.
  - rewrite map_app, in_app_iff in Hid.
    replace (before ++ (word, id) :: behind ++ [e])
      with ((before ++ (word, id) :: behind) ++ [e])
      by (now rewrite <- app_assoc).
    rewrite reverseVocab_snoc, lookup_insert_ne.
    + apply IH. tauto.
    + intros Heq. apply Hid. right. left. exact Heq.
Qed.

(** X7.  The reverse vocabulary knows exactly the identifiers of the
    vocabulary, and where several keys carry one identifier it maps the
    identifier to the last of them in the order of the entries. *)
Theorem reverseVocab_keeps_last (before behind : vocabulary) (word : ustring) (id other : Z) :
  (~ In id (map snd behind) ->
   reverseVocab (before ++ (word, id) :: behind) !! id = Some word)
  /\ (reverseVocab (before ++ behind) !! other = None
      <-> ~ In other (map snd (before ++ behind))).
Proof.
  split; [apply reverseVocab_last|]. split.
  - intros Hnone Hin. apply reverseVocab_present in Hin.
    destruct Hin as [w Hw]. congruence.
  - apply reverseVocab_absent.
Qed.

Lemma reverseVocab_keeps_last_witness :
  reverseVocab ([(of_ascii "a", 1)] ++ (of_ascii "b", 1) :: [(of_ascii "c", 2)]) !! 1
  = Some (of_ascii "b")
  /\ reverseVocab ([(of_ascii "a", 1)] ++ [(of_ascii "c", 2)]) !! 7 = None.
Proof.
  pose proof (reverseVocab_keeps_last [(of_ascii "a", 1)] [(of_ascii "c", 2)]
                (of_ascii "b") 1 7) as [Hlast [_ Hnone]].
  split.
  - apply Hlast. cbn. intros [H|[]]. discriminate.
  - apply Hnone. cbn. intros [H|[H|[]]]; discriminate.
Defined.

Lemma keepWanted_app (l l' : list (option ustring)) :
  keepWanted (l ++ l') = keepWanted l ++ keepWanted l'.
Proof.
  induction l as [|[w|] l IH]; cbn [app keepWanted]; [reflexivity| |exact IH].
  destruct (wanted w); [cbn [app]; now rewrite IH|exact IH].
Qed.

(** X8.  A token without a vocabulary entry, and a token whose entry is a
    structural marker or the empty word, leaves no trace in the text, not
    even a space. *)
Theorem detokenize_skips (vocab : vocabulary) (l1 l2 : list token) (t : token) :
  match reverseGet (reverseVocab vocab) t with
  | Some w => wanted w = false
  | None => True
  end ->
  detokenize vocab (l1 ++ t :: l2) = detokenize vocab (l1 ++ l2).
Proof.
  intros Ht. unfold detokenize. f_equal. f_equal.
  rewrite !map_app, !keepWanted_app. f_equal. cbn [map keepWanted].
  destruct (reverseGet (reverseVocab vocab) t) as [w|]; [|reflexivity].
  now rewrite Ht.
Qed.

Lemma detokenize_skips_witness :
  detokenize greeting ([Id 5] ++ Id 0 :: [Id 7]) = detokenize greeting ([Id 5] ++ [Id 7])
  /\ detokenize greeting ([Id 5] ++ Id 9 :: [Id 7]) = detokenize greeting ([Id 5] ++ [Id 7]).
Proof.
  split.
  - apply (detokenize_skips greeting [Id 5] [Id 7] (Id 0)). reflexivity.
  - apply (detokenize_skips greeting [Id 5] [Id 7] (Id 9)). exact I.
Defined.

Lemma trimStart_clean (s : ustring) :
  match trimStart s with
  | c :: _ => isSpace c = false
  | [] => True
  end.
Proof.
  induction s as [|c s IH]; [exact I|]. cbn [trimStart].
  destruct (isSpace c) eqn:Hc; [exact IH|exact Hc].
Qed.

Lemma trimStart_snoc (s : ustring) (c : N) :
  isSpace c = false -> trimStart (s ++ [c]) = trimStart s ++ [c].
Proof.
  intros Hc. induction s as [|x s IH]; cbn [app trimStart].
  - now rewrite Hc.
  - destruct (isSpace x); [exact IH|reflexivity].
Qed.

Lemma trim_clean (s : ustring) :
  match trim s with
  | c :: _ => isSpace c = false
  | [] => True
  end
  /\ match rev (trim s) with
     | c :: _ => isSpace c = false
     | [] => True
     end.
Proof.
  unfold trim. split.
  - pose proof (trimStart_clean s) as H.
    destruct (trimStart s) as [|c t]; [exact I|].
    cbn [rev]. rewrite (trimStart_snoc _ c H), rev_app_distr. exact H.
  - rewrite rev_involutive. apply trimStart_clean.
Qed.

(** X9.  The text that [detokenize] returns neither starts nor ends with white
    space, whatever the words of the vocabulary are. *)
Theorem detokenize_trimmed (vocab : vocabulary) (tokenIds : list token) :
  match detokenize vocab tokenIds with
  | c :: _ => isSpace c = false
  | [] => True
  end
  /\ match rev (detokenize vocab tokenIds) with
     | c :: _ => isSpace c = false
     | [] => True
     end.
Proof. unfold detokenize. apply trim_clean. Qed.

End DetokenizerFacts.

(* ===================================================================== *)
(** ** Further properties of the tensor builder *)
(* ===================================================================== *)

Section PaddingFacts.

Lemma firstn_repeat {A : Type} (x : A) (k n : nat) :
  firstn k (repeat x n) = repeat x (Nat.min k n).
Proof.
  revert n. induction k as [|k IH]; intros [|n]; cbn; try reflexivity.
  now rewrite IH.
Qed.

Lemma padTokens_closed (inputTokens : list token) :
  padTokens inputTokens
  = firstn (Z.to_nat maxLength) (inputTokens ++ repeat (Id 0) (Z.to_nat maxLength)).
Proof.
  rewrite firstn_app, firstn_repeat.
  destruct (Z_lt_le_dec maxLength (len inputTokens)) as [Hlong|Hshort].
  - rewrite padTokens_long by assumption. unfold len in Hlong.
    replace (Z.to_nat maxLength - length inputTokens)%nat with O by lia.
    cbn [Nat.min repeat]. now rewrite app_nil_r.
  - rewrite padTokens_short by assumption. unfold len in *.
    rewrite firstn_all2 by lia. f_equal. f_equal. lia.
Qed.

(** X10.  Padding in one formula: the first [maxLength] elements of the input
    followed by zeros.  Hence padding a padded sequence changes nothing,
    and the mask of the padded sequence is the padded mask of the input. *)
Theorem padTokens_is_cut_of_fill (inputTokens : list token) :
  padTokens inputTokens
  = firstn 512 (inputTokens ++ repeat (Id 0) 512)
  /\ padTokens (padTokens inputTokens) = padTokens inputTokens
  /\ attentionMask (padTokens inputTokens)
     = firstn 512 (attentionMask inputTokens ++ repeat 0 512).
Proof.
  split; [apply padTokens_closed|]. split.
  - pose proof (padTokens_len inputTokens) as Hlen.
    rewrite (padTokens_short (padTokens inputTokens)) by lia.
    rewrite Hlen. replace (Z.to_nat (maxLength - maxLength)) with O by lia.
    cbn [repeat]. apply app_nil_r.
  - rewrite padTokens_closed. unfold attentionMask.
    rewrite <- firstn_map, map_app, map_repeat. reflexivity.
Qed.

Lemma inputIds_None (paddedTokens : list token) :
  inputIds paddedTokens = None <-> In Inherited paddedTokens.
Proof.
  induction paddedTokens as [|t rest IH]; cbn [inputIds In].
  - split; [discriminate|intros []].
  - destruct t as [n|]; cbn [toBigInt].
    + destruct (inputIds rest) as [xs|].
      * split; [discriminate|]. intros [H|H]; [discriminate|].
        apply IH in H. discriminate.
      * split; [|reflexivity]. intros _. right. now apply IH.
    + split; [now left|reflexivity].
Qed.

Lemma In_firstn_In {A : Type} (x : A) (k : nat) (l : list A) :
  In x (firstn k l) -> In x l.
Proof.
  revert l. induction k as [|k IH]; intros [|y l]; cbn; try tauto.
  intros [H|H]; [now left|right; now apply IH].
Qed.

Lemma In_firstn_fill (inputTokens : list token) (k n : nat) :
  In Inherited (firstn k (inputTokens ++ repeat (Id 0) n))
  <-> In Inherited (firstn k inputTokens).
Proof.
  rewrite firstn_app, in_app_iff. split; [|now left].
  intros [H|H]; [exact H|].
  apply In_firstn_In in H. apply repeat_spec in H. discriminate.
Qed.

(** X11.  The tensor of identifiers cannot be built exactly when an inherited
    object is among the first [maxLength] tokens; one that is cut off by
    the truncation does no harm. *)
Theorem inputIds_fails_iff_inherited (inputTokens : list token) :
  inputIds (padTokens inputTokens) = None
  <-> In Inherited (firstn 512 inputTokens).
Proof.
  rewrite inputIds_None, padTokens_closed. apply In_firstn_fill.
Qed.

Lemma asInt64_small (x : Z) : - 2 ^ 63 <= x < 2 ^ 63 -> asInt64 x = x.
Proof. intros H. unfold asInt64. rewrite Z.mod_small; lia. Qed.

Lemma inputIds_numbers (ns : list Z) :
  Forall (fun n => - 2 ^ 63 <= n < 2 ^ 63) ns ->
  inputIds (map Id ns) = Some ns.
Proof.
  induction 1 as [|n ns Hn _ IH]; [reflexivity|].
  cbn [map inputIds toBigInt]. rewrite IH. now rewrite (asInt64_small n Hn).
Qed.

(** X12.  Numeric tokens that fit in 64 bits reach the tensor unchanged: the
    tensor holds the first [maxLength] of them followed by zeros. *)
Theorem inputIds_of_numbers (ns : list Z) :
  Forall (fun n => - 2 ^ 63 <= n < 2 ^ 63) ns ->
  inputIds (padTokens (map Id ns)) = Some (firstn 512 (ns ++ repeat 0 512)).
Proof.
  intros Hns. rewrite padTokens_closed.
  rewrite <- (map_repeat 0 _ Id), <- map_app, firstn_map.
  apply inputIds_numbers. apply List.Forall_forall. intros n Hn.
  apply In_firstn_In in Hn. apply in_app_iff in Hn. destruct Hn as [Hn|Hn].
  - now apply (proj1 (List.Forall_forall _ _) Hns).
  - apply repeat_spec in Hn. subst n. lia.
Qed.

Lemma inputIds_of_numbers_witness :
  inputIds (padTokens (map Id [5; 0; 7])) = Some (firstn 512 ([5; 0; 7] ++ repeat 0 512)).
Proof.
  apply (inputIds_of_numbers [5; 0; 7]). repeat constructor; lia.
Defined.

End PaddingFacts.

(* ===================================================================== *)
(** ** Further properties of the decoder *)
(* ===================================================================== *)

Section DecodingFacts.

Variables (logitsData : list number) (vocabSize startIdx maxLength : Z).

Local Abbreviation row i := (argmax logitsData vocabSize ((startIdx + i) * vocabSize)).

Definition stops (t : Z) : Prop := t = 0 \/ t = 2.

Lemma argmax_range (offset : Z) :
  0 <= argmax logitsData vocabSize offset
  /\ (argmax logitsData vocabSize offset < Z.min vocabSize 10000
      \/ argmax logitsData vocabSize offset = 0).
Proof.
  destruct (argmax_scanned logitsData vocabSize offset)
    as (maxProb & _ & _ & Hpos & Hrange & _).
  unfold candidates in Hrange. lia.
Qed.

Lemma stop_test (t : Z) :
  ((t =? 0) || (t =? 2))%bool = true <-> stops t.
Proof. unfold stops. rewrite orb_true_iff, !Z.eqb_eq. reflexivity. Qed.

(** What the loop keeps true of the tokens it has pushed: the token at
    index [j] is the one selected in row [startIdx + j], and it is no
    stop token. *)
Definition rowwise (outputTokens : list Z) : Prop :=
  forall (j : nat) (t : Z),
    outputTokens !! j = Some t -> t = row (Z.of_nat j) /\ ~ stops t.

Lemma decodeLoop_rowwise (turns : nat) :
  forall (i : Z) (outputTokens : list Z),
    len outputTokens = i ->
    rowwise outputTokens ->
    rowwise (decodeLoop logitsData vocabSize startIdx maxLength turns i outputTokens).
Proof.
  induction turns as [|k IH]; intros i outputTokens Hlen Hrows; cbn [decodeLoop];
    [exact Hrows|].
  destruct (startIdx + i >=? maxLength); [exact Hrows|].
  destruct (_ || _)%bool eqn:Hstop; [exact Hrows|].
  apply IH.
  - rewrite len_app. unfold len at 2. cbn [length]. lia.
  - intros j t Hj. destruct (Nat.lt_ge_cases j (length outputTokens)) as [Hlt|Hge].
    + rewrite lookup_app_l in Hj by assumption. now apply Hrows.
    + rewrite lookup_app_r in Hj by assumption.
      destruct (j - length outputTokens)%nat as [|m] eqn:Hm; [|discriminate].
      injection Hj as <-.
      assert (Hji : Z.of_nat j = i) by (unfold len in Hlen; lia).
      rewrite Hji. split; [reflexivity|].
      intros H. apply stop_test in H. congruence.
Qed.

(** X13.  Every token of the output is the identifier selected in its own row
    of the one logits tensor, the row of position [startIdx + j] for the
    token at index [j]; it is no stop token, and it lies strictly between
    0 and [min(vocabSize, 10000)]. *)
Theorem decode_tokens (maxNewTokens : Z) (j : nat) (t : Z) :
  decode logitsData vocabSize startIdx maxLength maxNewTokens !! j = Some t ->
  t = row (Z.of_nat j) /\ t <> 0 /\ t <> 2 /\ 0 < t < Z.min vocabSize 10000.
Proof.
  intros Hj.
  assert (H : rowwise (decode logitsData vocabSize startIdx maxLength maxNewTokens)).
  { unfold decode. apply decodeLoop_rowwise; [reflexivity|]. intros j' t' [=]. }
  destruct (H j t Hj) as [Ht Hstop]. unfold stops in Hstop.
  split; [exact Ht|]. split; [tauto|]. split; [tauto|].
  pose proof (argmax_range ((startIdx + Z.of_nat j) * vocabSize)) as Hr.
  rewrite <- Ht in Hr. lia.
Qed.

Lemma decodeLoop_full (turns : nat) :
  forall (i : Z) (outputTokens : list Z),
    (forall k, i <= k < i + Z.of_nat turns -> startIdx + k < maxLength -> ~ stops (row k)) ->
    len (decodeLoop logitsData vocabSize startIdx maxLength turns i outputTokens)
    = len outputTokens + Z.max 0 (Z.min (Z.of_nat turns) (maxLength - startIdx - i)).
Proof.
  induction turns as [|n IH]; intros i outputTokens Hrows; cbn [decodeLoop]; [lia|].
  destruct (Z.geb_spec (startIdx + i) maxLength) as [Hge|Hlt]; [lia|].
  destruct (_ || _)%bool eqn:Hstop.
  - apply stop_test in Hstop. destruct (Hrows i); [lia|lia|exact Hstop].
  - rewrite IH.
    + rewrite len_app. unfold len at 2. cbn [length]. lia.
    + intros k Hk. apply Hrows. lia.
Qed.

(** X14.  The bound on the length is reached when no row selects a stop token:
    the output then has exactly [max(0, min(maxNewTokens, maxLength -
    startIdx))] tokens. *)
Theorem decode_fills_to_bound (maxNewTokens : Z) :
  (forall k, 0 <= k < maxNewTokens -> startIdx + k < maxLength -> ~ stops (row k)) ->
  len (decode logitsData vocabSize startIdx maxLength maxNewTokens)
  = Z.max 0 (Z.min maxNewTokens (maxLength - startIdx)).
Proof.
  intros Hrows. unfold decode. rewrite decodeLoop_full.
  - unfold len. cbn [length]. lia.
  - intros k Hk. apply Hrows. lia.
Qed.

Lemma scan_nothing_greater (offset : Z) (n : nat) :
  forall t : Z,
    (forall s, t <= s < t + Z.of_nat n ->
               gtb (read logitsData (offset + s)) NegInf = false) ->
    scan logitsData offset n t NegInf 0 = (NegInf, 0).
Proof.
  induction n as [|k IH]; intros t H; cbn [scan]; [reflexivity|].
  rewrite H by lia. apply IH. intros s Hs. apply H. lia.
Qed.

(** X15.  Where no candidate of the row at [startIdx] has a logit greater than
    [-Infinity] (the values are [-Infinity] or [NaN], or lie outside the
    array, or there is no candidate at all) identifier 0 is selected and
    the output is empty. *)
Theorem decode_nothing_to_select (maxNewTokens : Z) :
  (forall s, 0 <= s < Z.min vocabSize 10000 ->
             gtb (read logitsData (startIdx * vocabSize + s)) NegInf = false) ->
  argmax logitsData vocabSize (startIdx * vocabSize) = 0
  /\ decode logitsData vocabSize startIdx maxLength maxNewTokens = [].
Proof.
  intros H.
  assert (H0 : argmax logitsData vocabSize (startIdx * vocabSize) = 0).
  { unfold argmax. rewrite scan_nothing_greater; [reflexivity|].
    intros s Hs. apply H. unfold candidates in Hs. lia. }
  split; [exact H0|]. unfold decode. apply decodeLoop_stops.
  left. now rewrite Z.add_0_r.
Qed.

End DecodingFacts.

Lemma decode_tokens_witness :
  3 = argmax [Fin 0; Fin 1; Fin 0; Fin 9] 4 ((0 + Z.of_nat 0) * 4)
  /\ 3 <> 0 /\ 3 <> 2 /\ 0 < 3 < Z.min 4 10000.
Proof.
  apply (decode_tokens [Fin 0; Fin 1; Fin 0; Fin 9] 4 0 1 100 0 3).
  reflexivity.
Defined.

Lemma decode_fills_to_bound_witness :
  len (decode [Fin 0; Fin 1; Fin 0; Fin 1] 2 0 2 100) = Z.max 0 (Z.min 100 (2 - 0)).
Proof.
  apply (decode_fills_to_bound [Fin 0; Fin 1; Fin 0; Fin 1] 2 0 2 100).
  intros k Hk Hlt [H|H];
    assert (Hk' : k = 0 \/ k = 1) by lia;
    destruct Hk' as [-> | ->]; vm_compute in H; discriminate.
Defined.

Lemma decode_nothing_to_select_witness :
  argmax [NegInf; NaN] 5 (0 * 5) = 0 /\ decode [NegInf; NaN] 5 0 512 100 = [].
Proof.
  apply (decode_nothing_to_select [NegInf; NaN] 5 0 512 100).
  intros s Hs.
  assert (Hs' : s = 0 \/ s = 1 \/ s = 2 \/ s = 3 \/ s = 4) by (simpl in Hs; lia).
  destruct Hs' as [-> | [-> | [-> | [-> | ->]]]]; reflexivity.
Defined.

(* ===================================================================== *)
(** ** Further properties of the model acquirer *)
(* ===================================================================== *)

Section DownloadFacts.

Definition isRedirect (statusCode : Z) : bool :=
  ((statusCode =? 302) || (statusCode =? 301))%bool.

(** X16.  Starting without a file, the call is rejected exactly when the first
    request fails or the first response is a redirect (301 or 302) and
    the second request fails; the file is missing afterwards exactly when
    the first request failed; and at most two requests are sent. *)
Theorem downloadModel_from_scratch (net : network) (e : string) :
  (settled (downloadModel None net) = Rejected e
   <-> first net = RequestError e
       \/ (exists statusCode body,
             first net = Response statusCode body
             /\ isRedirect statusCode = true
             /\ redirected net = RequestError e))
  /\ (after (downloadModel None net) = None <-> exists e', first net = RequestError e')
  /\ (1 <= requests (downloadModel None net) <= 2)%nat.
Proof.
  unfold downloadModel, start, finish, isRedirect.
  destruct (first net) as [e1|statusCode body]; cbn.
  - repeat split; try lia.
    + intros [= ->]. now left.
    + intros [[= ->]|(sc & b & [=] & _)]. reflexivity.
    + intros _. now exists e1.
  - destruct ((statusCode =? 302) || (statusCode =? 301))%bool eqn:Hr.
    + destruct (redirected net) as [e2|statusCode' body']; cbn;
        repeat split; try lia; try discriminate.
      * intros [= ->]. right. exists statusCode, body. now rewrite Hr.
      * intros [[=]|(sc & b & _ & _ & [= ->])]. reflexivity.
      * intros [e' [=]].
      * intros [[=]|(sc & b & _ & _ & [=])].
      * intros [e' [=]].
    + cbn. repeat split; try lia; try discriminate.
      * intros [[=]|(sc & b & [= <- <-] & Hr' & _)]. congruence.
      * intros [e' [=]].
Qed.

End DownloadFacts.

(* ===================================================================== *)
(** ** What holds of the session manager on every run *)
(* ===================================================================== *)

Section FetchFacts.

(** The four shapes that the shared variables can have: nothing has
    happened; the one download is in flight; the file is there and no
    download is in flight; the one download has failed on its first
    request. *)
Definition shape (s : state) : Prop :=
  (fetches s = 0%nat /\ cache s = None /\ promises s = [] /\ session s = None)
  \/ (fetches s = 1%nat /\ cache s <> None /\ promises s = [Downloading]
      /\ modelLoading s = Some 0%nat /\ session s = None)
  \/ (fetches s = 1%nat /\ cache s <> None /\ ~ In Downloading (promises s))
  \/ (fetches s = 1%nat /\ cache s = None /\ promises s = [Failed]
      /\ modelLoading s = Some 0%nat /\ session s = None).

Lemma not_Downloading_snoc (ps : list promise) (v : promise) :
  ~ In Downloading ps -> v <> Downloading -> ~ In Downloading (ps ++ [v]).
Proof.
  intros Hps Hv Hin. apply in_app_iff in Hin.
  destruct Hin as [Hin|[Hin|[]]]; [tauto|congruence].
Qed.

Lemma In_insert {A : Type} (l : list A) (i : nat) (x y : A) :
  In y (<[i:=x]> l) -> y = x \/ In y l.
Proof.
  revert i. induction l as [|z l IH]; intros [|i]; cbn; try tauto.
  - intros [H|H]; [now left|right; now right].
  - intros [H|H]; [right; now left|].
    destruct (IH i H) as [Hy|Hy]; [now left|right; now right].
Qed.

Ltac shape_cases H :=
  destruct H as [(Hf & Hc & Hp & Hs)
                |[(Hf & Hc & Hp & Hm & Hs)
                 |[(Hf & Hc & Hp)
                  |(Hf & Hc & Hp & Hm & Hs)]]].

Lemma shape_enter (i : nat) (s : state) : shape s -> shape (enter i s).
Proof.
  intros H. unfold enter, callDownload, start, suspend, setCaller, shape in *.
  destruct (session s) as [o|] eqn:Hsess; [exact H|].
  destruct (modelLoading s) as [p|] eqn:Hml; [cbn; rewrite ?Hsess, ?Hml; exact H|].
  shape_cases H; try congruence.
  - rewrite Hc. cbn. rewrite Hp. cbn. right. left. repeat split; congruence.
  - destruct (cache s) as [d|] eqn:Hd; [|congruence]. cbn.
    right. right. left. repeat split; try congruence.
    now apply not_Downloading_snoc.
Qed.

Lemma shape_resume (i : nat) (s : state) : shape s -> shape (resume i s).
Proof.
  intros H. unfold resume.
  destruct (nth_error (callers s) i) as [[|p|p|p|o|]|]; try exact H.
  - (* AwaitLoading *)
    destruct (nth_error (promises s) p) as [[| | |]|] eqn:Hp'; try exact H.
    destruct (session s) as [o|] eqn:Hsess; [exact H|].
    unfold callDownload, start, suspend, setCaller, shape in *.
    shape_cases H; try (rewrite Hp in Hp'; destruct p as [|[|p]]; discriminate).
    destruct (cache s) as [d|] eqn:Hd; [|congruence]. cbn.
    right. right. left. repeat split; try congruence.
    now apply not_Downloading_snoc.
  - (* AwaitDownload *)
    destruct (nth_error (promises s) p) as [[| | |]|] eqn:Hp'; try exact H.
    unfold callCreate, suspend, setCaller, shape in *.
    shape_cases H; try (rewrite Hp in Hp'; destruct p as [|[|p]]; discriminate).
    cbn. right. right. left. repeat split; try congruence.
    now apply not_Downloading_snoc.
  - (* AwaitCreate *)
    destruct (nth_error (promises s) p) as [[| | |]|] eqn:Hp'; try exact H.
    unfold setCaller, shape in *.
    shape_cases H; try (rewrite Hp in Hp'; destruct p as [|[|p]]; discriminate).
    cbn. right. right. left. repeat split; congruence.
Qed.

Lemma shape_drain (fuel : nat) :
  forall s s', shape s -> drain fuel s = Some s' -> shape s'.
Proof.
  induction fuel as [|k IH]; intros s s' H; cbn [drain];
    destruct (microtasks s) as [|i rest].
  - intros [= <-]. exact H.
  - discriminate.
  - intros [= <-]. exact H.
  - apply IH. apply shape_resume. exact H.
Qed.

Lemma shape_step (e : event) (s s' : state) :
  shape s -> step e s = Some s' -> shape s'.
Proof.
  intros H. destruct e as [i|p net|c ok]; cbn [step].
  - destruct (nth_error (callers s) i) as [[]|]; try discriminate.
    apply shape_drain. now apply shape_enter.
  - destruct (nth_error (promises s) p) as [[]|] eqn:Hp'; try discriminate.
    apply shape_drain. unfold settle, shape in *.
    shape_cases H; try (rewrite Hp in Hp'; destruct p as [|[|p]]; discriminate).
    + rewrite Hp in Hp'. destruct p as [|p]; [|destruct p; discriminate].
      cbn. rewrite Hp. cbn. unfold finish.
      destruct (first net) as [e1|statusCode body]; cbn.
      * right. right. right. repeat split; congruence.
      * destruct (_ || _)%bool.
        -- destruct (redirected net) as [e2|statusCode' body']; cbn;
             right; right; left; repeat split; try congruence;
             intros [Hin|[]]; discriminate.
        -- cbn. right; right; left; repeat split; try congruence;
             intros [Hin|[]]; discriminate.
    + apply nth_error_In in Hp'. tauto.
  - destruct (nth_error (promises s) c) as [[]|] eqn:Hp'; try discriminate.
    apply shape_drain. unfold settle, shape in *.
    shape_cases H; try (rewrite Hp in Hp'; destruct c as [|[|c]]; discriminate).
    cbn. right. right. left. repeat split; try congruence.
    intros Hin. apply In_insert in Hin. destruct Hin as [Hin|Hin]; [|tauto].
    destruct ok; discriminate.
Qed.

Lemma shape_run (es : list event) :
  forall s s', shape s -> run es s = Some s' -> shape s'.
Proof.
  induction es as [|e es IH]; intros s s' H; cbn [run].
  - intros [= <-]. exact H.
  - destruct (step e s) as [s1|] eqn:Hstep; [|discriminate].
    apply IH. now apply (shape_step e s).
Qed.

(** X18.  However many requests call [getSession()] and in whatever order the
    events come, a process that starts without the cache file sends at
    most one request for [MODEL_URL]. *)
Theorem getSession_fetches_at_most_once (n : nat) (es : list event) (s : state) :
  run es (init n) = Some s -> (fetches s <= 1)%nat.
Proof.
  intros Hrun.
  assert (H : shape s).
  { apply (shape_run es (init n)); [|exact Hrun]. left. repeat split. }
  unfold shape in H. shape_cases H; lia.
Qed.

End FetchFacts.

Lemma getSession_fetches_at_most_once_witness :
  exists s : state,
    run twoCallers (init 2) = Some s /\ (fetches s <= 1)%nat.
Proof.
  eexists. split; [vm_compute; reflexivity|].
  eapply (getSession_fetches_at_most_once 2 twoCallers).
  vm_compute. reflexivity.
Defined.

(* ===================================================================== *)
(** ** A failed download *)
(* ===================================================================== *)

Section FailureFacts.

Lemma nth_error_lookup {A : Type} (l : list A) (i : nat) : nth_error l i = l !! i.
Proof. revert i. induction l as [|x l IH]; intros [|i]; cbn; auto. Qed.

Lemma run_app (es es' : list event) :
  forall s, run (es ++ es') s = match run es s with
                                | Some s1 => run es' s1
                                | None => None
                                end.
Proof.
  induction es as [|e es IH]; intros s; cbn [app run]; [reflexivity|].
  destruct (step e s); [apply IH|reflexivity].
Qed.

Lemma drain_empties (fuel : nat) :
  forall s s', drain fuel s = Some s' -> microtasks s' = [].
Proof.
  induction fuel as [|k IH]; intros s s'; cbn [drain];
    destruct (microtasks s) as [|i rest] eqn:Hq.
  - now intros [= <-].
  - discriminate.
  - now intros [= <-].
  - apply IH.
Qed.

Lemma drain_nothing (fuel : nat) (s : state) :
  microtasks s = [] -> drain fuel s = Some s.
Proof. intros H. destruct fuel; cbn [drain]; now rewrite H. Qed.

Lemma settled_finish (net : network) (d d' : disk) :
  settled (finish net d) = settled (finish net d').
Proof.
  unfold finish. destruct (first net); [reflexivity|].
  destruct (_ || _)%bool; [|reflexivity]. destruct (redirected net); reflexivity.
Qed.

(** A caller that is suspended on the first promise. *)
Definition onFirst (c : caller) : bool :=
  match c with
  | AwaitLoading 0 | AwaitDownload 0 => true
  | _ => false
  end.

Definition idle (c : caller) : Prop := c = Ready \/ c = Threw.

Definition idleOrOnFirst (c : caller) : Prop := idle c \/ onFirst c = true.

(** Before the download has ended: no caller has got further than the
    first promise, and the callers suspended on it are all waiting. *)
Definition beforeEnd (s : state) : Prop :=
  session s = None /\ creates s = 0%nat /\ microtasks s = []
  /\ Forall (fun c => c = Ready \/ onFirst c = true) (callers s)
  /\ (forall i c, callers s !! i = Some c -> onFirst c = true -> In i (waiting s))
  /\ ((promises s = [] /\ modelLoading s = None /\ cache s = None)
      \/ (promises s = [Downloading] /\ modelLoading s = Some 0%nat)).

(** After the download has failed: the rejected promise stays in
    [modelLoading], and the callers suspended on it are due to resume. *)
Definition afterFailure (s : state) : Prop :=
  promises s = [Failed] /\ modelLoading s = Some 0%nat /\ session s = None
  /\ creates s = 0%nat
  /\ Forall idleOrOnFirst (callers s)
  /\ (forall i c, callers s !! i = Some c -> onFirst c = true -> In i (microtasks s)).

Lemma lookup_insert_cases {A : Type} (l : list A) (i j : nat) (x y : A) :
  <[i:=x]> l !! j = Some y -> (j = i /\ y = x) \/ (j <> i /\ l !! j = Some y).
Proof.
  intros H. destruct (Nat.eq_dec i j) as [->|Hne].
  - left. split; [reflexivity|].
    destruct (Nat.lt_ge_cases j (length l)) as [Hlt|Hge].
    + rewrite list_lookup_insert_eq in H by assumption. congruence.
    + rewrite list_insert_ge in H by assumption.
      apply lookup_lt_Some in H. lia.
  - right. rewrite list_lookup_insert_ne in H by assumption. split; [congruence|exact H].
Qed.

Lemma beforeEnd_call (i : nat) (s s' : state) :
  beforeEnd s -> step (Call i) s = Some s' ->
  beforeEnd s' /\ promises s' = [Downloading].
Proof.
  intros (Hs & Hc & Hq & Hall & Hwait & Hp). cbn [step].
  destruct (nth_error (callers s) i) as [[]|]; try discriminate.
  unfold enter. rewrite Hs.
  destruct Hp as [(Hp & Hm & Hd)|(Hp & Hm)]; rewrite Hm.
  - unfold callDownload, start, suspend, setCaller. rewrite Hd, Hp. cbn.
    rewrite Hq, drain_nothing by reflexivity. intros [= <-]; cbn;
      (split; [|reflexivity]); repeat split; try assumption;
      try (apply Forall_insert; [assumption|right; reflexivity]);
      try (right; split; reflexivity).
    all: intros j c Hj Hc'; apply in_app_iff;
      destruct (lookup_insert_cases _ _ _ _ _ Hj) as [[-> _]|[_ Hj']];
      [right; now left|left; now apply (Hwait j c)].
  - unfold suspend, setCaller. rewrite Hp. cbn.
    rewrite Hq, drain_nothing by reflexivity. intros [= <-]; cbn;
      (split; [|reflexivity]); repeat split; try assumption;
      try (apply Forall_insert; [assumption|right; reflexivity]);
      try (right; split; [reflexivity|assumption]).
    all: intros j c Hj Hc'; apply in_app_iff;
      destruct (lookup_insert_cases _ _ _ _ _ Hj) as [[-> _]|[_ Hj']];
      [right; now left|left; now apply (Hwait j c)].
Qed.

Lemma beforeEnd_calls (calls : list nat) :
  forall s s', beforeEnd s -> run (map Call calls) s = Some s' -> beforeEnd s'.
Proof.
  induction calls as [|i calls IH]; intros s s' H; cbn [map run].
  - now intros [= <-].
  - destruct (step (Call i) s) as [s1|] eqn:Hstep; [|discriminate].
    apply IH. now apply (beforeEnd_call i s s1).
Qed.

Lemma afterFailure_resume (i : nat) (rest : list nat) (s : state) :
  afterFailure s -> microtasks s = i :: rest ->
  afterFailure
    (resume i
       {| session := session s; modelLoading := modelLoading s;
          promises := promises s; cache := cache s; fetches := fetches s;
          creates := creates s; callers := callers s;
          waiting := waiting s; microtasks := rest |}).
Proof.
  intros (Hp & Hm & Hs & Hc & Hall & Hdue) Hq.
  assert (Hrest : forall j c, callers s !! j = Some c -> onFirst c = true ->
                              j <> i -> In j rest).
  { intros j c Hj Hc' Hne. specialize (Hdue j c Hj Hc'). rewrite Hq in Hdue.
    destruct Hdue as [->|Hin]; [congruence|exact Hin]. }
  assert (Hthrew : afterFailure
            (setCaller i Threw
               {| session := session s; modelLoading := modelLoading s;
                  promises := promises s; cache := cache s; fetches := fetches s;
                  creates := creates s; callers := callers s;
                  waiting := waiting s; microtasks := rest |})).
  { unfold afterFailure, setCaller. cbn. repeat split; try assumption.
    - apply Forall_insert; [assumption|left; right; reflexivity].
    - intros j c Hj Hc'.
      destruct (lookup_insert_cases _ _ _ _ _ Hj) as [[_ ->]|[Hne Hj']];
        [discriminate|now apply (Hrest j c)]. }
  assert (Hsame : (forall c, callers s !! i = Some c -> onFirst c = false) ->
            afterFailure
               {| session := session s; modelLoading := modelLoading s;
                  promises := promises s; cache := cache s; fetches := fetches s;
                  creates := creates s; callers := callers s;
                  waiting := waiting s; microtasks := rest |}).
  { intros Hi. unfold afterFailure. cbn. repeat split; try assumption.
    intros j c Hj Hc'. apply (Hrest j c Hj Hc'). intros ->.
    rewrite (Hi c Hj) in Hc'. discriminate. }
  unfold resume. cbn [callers promises session].
  rewrite nth_error_lookup.
  destruct (callers s !! i) as [c|] eqn:Hi; [|apply Hsame; intros c [=]].
  destruct c as [|p|p|p|o|];
    try (apply Hsame; intros c [= <-]; reflexivity);
    destruct (nth_error (promises s) p) as [v|] eqn:Hv;
    rewrite Hp in Hv; destruct p as [|[|p]]; cbn in Hv; try discriminate Hv;
    try (injection Hv as <-; exact Hthrew);
    apply Hsame; intros c [= <-]; reflexivity.
Qed.

Lemma afterFailure_drain (fuel : nat) :
  forall s s', afterFailure s -> drain fuel s = Some s' -> afterFailure s'.
Proof.
  induction fuel as [|k IH]; intros s s' H; cbn [drain];
    destruct (microtasks s) as [|i rest] eqn:Hq.
  - now intros [= <-].
  - discriminate.
  - now intros [= <-].
  - apply IH. now apply afterFailure_resume.
Qed.

Lemma afterFailure_step (e : event) (s s' : state) :
  afterFailure s -> microtasks s = [] -> step e s = Some s' ->
  afterFailure s' /\ microtasks s' = [].
Proof.
  intros H Hq Hstep. split; [|destruct e; cbn [step] in Hstep;
    repeat match type of Hstep with
           | match ?x with _ => _ end = _ => destruct x; try discriminate
           end; now apply drain_empties in Hstep].
  destruct H as (Hp & Hm & Hs & Hc & Hall & Hdue).
  destruct e as [i|p net|c ok]; cbn [step] in Hstep.
  - destruct (nth_error (callers s) i) as [[]|]; try discriminate.
    revert Hstep. apply afterFailure_drain.
    unfold enter. rewrite Hs, Hm. unfold suspend, setCaller, afterFailure.
    rewrite Hp. cbn. repeat split; try assumption.
    + apply Forall_insert; [assumption|right; reflexivity].
    + intros j c Hj Hc'. apply in_app_iff.
      destruct (lookup_insert_cases _ _ _ _ _ Hj) as [[-> _]|[_ Hj']];
        [right; now left|left; now apply (Hdue j c)].
  - rewrite Hp in Hstep. destruct p as [|[|p]]; discriminate.
  - rewrite Hp in Hstep. destruct c as [|[|c]]; discriminate.
Qed.

Lemma afterFailure_run (es : list event) :
  forall s s', afterFailure s -> microtasks s = [] -> run es s = Some s' ->
               afterFailure s' /\ microtasks s' = [].
Proof.
  induction es as [|e es IH]; intros s s' H Hq; cbn [run].
  - intros [= <-]. now split.
  - destruct (step e s) as [s1|] eqn:Hstep; [|discriminate].
    destruct (afterFailure_step e s s1 H Hq Hstep) as [H1 Hq1]. now apply IH.
Qed.

Lemma beforeEnd_failure (net : network) (s s' : state) :
  settled (downloadModel None net) <> Resolved ->
  beforeEnd s -> step (DownloadEnds 0 net) s = Some s' ->
  afterFailure s' /\ microtasks s' = [].
Proof.
  intros Hnet (Hs & Hc & Hq & Hall & Hwait & Hp) Hstep.
  split; [|cbn [step] in Hstep;
    repeat match type of Hstep with
           | match ?x with _ => _ end = _ => destruct x; try discriminate
           end; now apply drain_empties in Hstep].
  cbn [step] in Hstep.
  destruct Hp as [(Hp & Hm & Hd)|(Hp & Hm)]; rewrite Hp in Hstep; [discriminate|].
  cbn [nth_error] in Hstep. revert Hstep. apply afterFailure_drain.
  assert (Hv : match settled (finish net (cache s)) with
               | Resolved => Fulfilled
               | Rejected _ => Failed
               end = Failed).
  { rewrite (settled_finish net (cache s) (Some [])).
    change (finish net (Some [])) with (downloadModel None net).
    destruct (settled (downloadModel None net)); [congruence|reflexivity]. }
  rewrite Hv. unfold settle, afterFailure. rewrite Hp. cbn.
  repeat split; try assumption.
  - eapply Forall_impl; [exact Hall|]. intros c [->|Hc'];
      [left; left; reflexivity|right; exact Hc'].
  - intros j c Hj Hc'. rewrite Hq. cbn [app]. apply filter_In.
    split; [now apply (Hwait j c)|].
    unfold awaits. rewrite nth_error_lookup, Hj.
    destruct c as [|[|p]|[|p]|p|o|]; try discriminate; reflexivity.
Qed.

(** X19.  Once the download has failed, on either request, no call of
    [getSession()] ever succeeds again in that process: the callers that
    were waiting throw, every caller that comes later throws as well, no
    session is constructed and no new download is started, because the
    rejected promise stays in [modelLoading]. *)
Theorem getSession_failure_is_permanent (n : nat) (calls : list nat) (net : network)
  (later : list event) (s : state) :
  settled (downloadModel None net) <> Resolved ->
  run (map Call calls ++ DownloadEnds 0 net :: later) (init n) = Some s ->
  session s = None /\ creates s = 0%nat /\ Forall idle (callers s).
Proof.
  intros Hnet Hrun. rewrite run_app in Hrun.
  destruct (run (map Call calls) (init n)) as [s1|] eqn:H1; [|discriminate].
  cbn [run] in Hrun.
  destruct (step (DownloadEnds 0 net) s1) as [s2|] eqn:H2; [|discriminate].
  assert (Hbefore : beforeEnd s1).
  { apply (beforeEnd_calls calls (init n)); [|exact H1].
    unfold beforeEnd, init. cbn. repeat split.
    - apply List.Forall_forall. intros c Hc. apply repeat_spec in Hc. now left.
    - intros i c Hi Hc. apply list_elem_of_lookup_2, list_elem_of_In, repeat_spec in Hi.
      subst c. discriminate.
    - left. repeat split. }
  destruct (beforeEnd_failure net s1 s2 Hnet Hbefore H2) as [Hf Hq].
  destruct (afterFailure_run later s2 s Hf Hq Hrun)
    as [(Hp & Hm & Hs & Hc & Hall & Hdue) Hq'].
  split; [exact Hs|]. split; [exact Hc|].
  apply Forall_lookup. intros i c Hi.
  destruct (proj1 (Forall_lookup _ _) Hall i c Hi) as [Hidle|Hon]; [exact Hidle|].
  specialize (Hdue i c Hi Hon). rewrite Hq' in Hdue. destruct Hdue.
Qed.

Lemma getSession_failure_is_permanent_witness :
  exists s : state,
    run (map Call [0; 1]%nat ++ DownloadEnds 0 brokenRedirect :: [Call 2]) (init 3) = Some s
    /\ session s = None /\ creates s = 0%nat /\ Forall idle (callers s).
Proof.
  eexists. split; [vm_compute; reflexivity|].
  eapply (getSession_failure_is_permanent 3 [0; 1]%nat brokenRedirect [Call 2]).
  - vm_compute. discriminate.
  - vm_compute. reflexivity.
Defined.

End FailureFacts.

(* ===================================================================== *)
(** ** Many callers at once *)
(* ===================================================================== *)

Section CrowdFacts.

Local Open Scope nat_scope.

(** The state in which the first [k] of [n] requests have called
    [getSession()] and the download is still in flight. *)
Definition crowd (n k : nat) : state :=
  {| session := None; modelLoading := Some 0; promises := [Downloading];
     cache := Some []; fetches := 1; creates := 0;
     callers := AwaitDownload 0 :: repeat (AwaitLoading 0) (k - 1) ++ repeat Ready (n - k);
     waiting := seq 0 k; microtasks := [] |}.

Lemma repeat_middle {A : Type} (a : A) (k : nat) (l : list A) :
  repeat a k ++ a :: l = a :: repeat a k ++ l.
Proof. induction k as [|k IH]; cbn; [reflexivity|]. now rewrite IH. Qed.

Lemma crowd_first (n : nat) : 0 < n -> step (Call 0) (init n) = Some (crowd n 1).
Proof.
  intros Hn. destruct n as [|m]; [lia|]. cbn [step init callers repeat nth_error].
  unfold enter, callDownload, start, suspend, setCaller. cbn.
  rewrite ?drain_nothing by reflexivity. unfold crowd. cbn. now rewrite Nat.sub_0_r.
Qed.

Lemma crowd_next (n k : nat) :
  1 <= k < n -> step (Call k) (crowd n k) = Some (crowd n (S k)).
Proof.
  intros Hk. cbn [step crowd callers].
  assert (Hlen : length (AwaitDownload 0 :: repeat (AwaitLoading 0) (k - 1)) = k)
    by (cbn; rewrite repeat_length; lia).
  change (AwaitDownload 0 :: repeat (AwaitLoading 0) (k - 1) ++ repeat Ready (n - k))
    with ((AwaitDownload 0 :: repeat (AwaitLoading 0) (k - 1)) ++ repeat Ready (n - k)).
  replace (n - k) with (S (n - S k)) by lia. cbn [repeat].
  rewrite nth_error_app2 by lia. rewrite Hlen, Nat.sub_diag. cbn [nth_error].
  unfold enter, suspend, setCaller. cbn.
  rewrite ?drain_nothing by reflexivity. unfold crowd. f_equal. f_equal.
  - destruct k as [|k']; [lia|].
    replace (S k' - 1) with k' by lia. replace (S (S k') - 1) with (S k') by lia.
    replace (n - S k') with (S (n - S (S k'))) by lia.
    cbn [repeat]. change (<[S k':=AwaitLoading 0]> (AwaitDownload 0 :: ?l))
      with (AwaitDownload 0 :: <[k':=AwaitLoading 0]> l).
    f_equal. rewrite insert_app_r_alt by (rewrite repeat_length; lia).
    rewrite repeat_length, Nat.sub_diag. cbn.
    apply repeat_middle.
  - now rewrite seq_S.
Qed.

Lemma crowd_calls (n m : nat) :
  forall k, 1 <= k -> k + m <= n ->
            run (map Call (seq k m)) (crowd n k) = Some (crowd n (k + m)).
Proof.
  induction m as [|m IH]; intros k Hk Hn; cbn [seq map run].
  - now rewrite Nat.add_0_r.
  - rewrite crowd_next by lia. rewrite IH by lia. f_equal. f_equal. lia.
Qed.

Lemma crowd_all (n : nat) :
  0 < n -> run (map Call (seq 0 n)) (init n) = Some (crowd n n).
Proof.
  intros Hn. destruct n as [|m]; [lia|]. cbn [seq map run].
  rewrite crowd_first by lia. now rewrite (crowd_calls (S m) m 1) by lia.
Qed.

Lemma lookup_repeat {A : Type} (a : A) (k j : nat) :
  j < k -> repeat a k !! j = Some a.
Proof.
  revert j. induction k as [|k IH]; intros [|j] Hj; cbn; try lia; [reflexivity|].
  apply IH. lia.
Qed.

Lemma crowd_lookup (n i : nat) :
  i < n ->
  callers (crowd n n) !! i = Some (AwaitDownload 0)
  \/ callers (crowd n n) !! i = Some (AwaitLoading 0).
Proof.
  intros Hi. unfold crowd. cbn [callers]. destruct i as [|i]; [now left|right].
  change ((AwaitDownload 0 :: ?l) !! S i) with (l !! i).
  rewrite lookup_app_l by (rewrite repeat_length; lia).
  apply lookup_repeat. lia.
Qed.

Lemma filter_all {A : Type} (f : A -> bool) (l : list A) :
  (forall x, In x l -> f x = true) -> List.filter f l = l.
Proof.
  induction l as [|x l IH]; intros H; cbn; [reflexivity|].
  rewrite (H x) by now left. f_equal. apply IH. intros y Hy. apply H. now right.
Qed.

Lemma filter_none {A : Type} (f : A -> bool) (l : list A) :
  (forall x, In x l -> f x = true) -> List.filter (fun x => negb (f x)) l = [].
Proof.
  induction l as [|x l IH]; intros H; cbn; [reflexivity|].
  rewrite (H x) by now left. cbn. apply IH. intros y Hy. apply H. now right.
Qed.

(** A caller that is due to resume from an [await] on a fulfilled
    download promise. *)
Definition due (s : state) (i : nat) : Prop :=
  exists p, promises s !! p = Some Fulfilled
            /\ (callers s !! i = Some (AwaitLoading p)
                \/ callers s !! i = Some (AwaitDownload p)).

(** The number of turns that the queued callers still need: two for a
    caller at line 57, one for a caller at line 63. *)
Fixpoint turns (cs : list caller) (queue : list nat) : nat :=
  match queue with
  | [] => 0
  | i :: rest =>
      match cs !! i with
      | Some (AwaitLoading _) => 2
      | _ => 1
      end + turns cs rest
  end.

(** While the queue is emptied after the download: no session is
    published yet, every queued caller is due, every other caller is
    inside [create], and the constructions started plus the callers
    queued make [n]. *)
Definition rush (n : nat) (s : state) : Prop :=
  session s = None /\ cache s <> None /\ fetches s = 1
  /\ length (callers s) = n
  /\ NoDup (microtasks s)
  /\ (forall i, In i (microtasks s) -> due s i)
  /\ (forall i, i < n -> ~ In i (microtasks s) ->
                exists p, callers s !! i = Some (AwaitCreate p))
  /\ creates s + length (microtasks s) = n.

Lemma turns_app (cs : list caller) (q q' : list nat) :
  turns cs (q ++ q') = turns cs q + turns cs q'.
Proof. induction q as [|j q IH]; cbn [app turns]; [reflexivity|]. rewrite IH. lia. Qed.

Lemma turns_insert (cs : list caller) (i : nat) (c : caller) (q : list nat) :
  ~ In i q -> turns (<[i:=c]> cs) q = turns cs q.
Proof.
  induction q as [|j q IH]; intros Hi; cbn [turns]; [reflexivity|].
  rewrite IH by (intros H; apply Hi; now right).
  rewrite list_lookup_insert_ne; [reflexivity|]. intros ->. apply Hi. now left.
Qed.

Lemma turns_bound (cs : list caller) (q : list nat) : turns cs q <= 2 * length q.
Proof.
  induction q as [|j q IH]; cbn [turns length]; [lia|].
  destruct (cs !! j) as [[]|]; lia.
Qed.

Lemma nth_error_end {A : Type} (l : list A) (x : A) :
  nth_error (l ++ [x]) (length l) = Some x.
Proof. rewrite nth_error_app2 by lia. now rewrite Nat.sub_diag. Qed.

Lemma due_grows (s s' : state) (i j : nat) (c : caller) (v : promise) :
  promises s' = promises s ++ [v] ->
  callers s' = <[i:=c]> (callers s) ->
  j <> i -> due s j -> due s' j.
Proof.
  intros Hp Hc Hne (p & Hpp & Hj). exists p. rewrite Hp, Hc. split.
  - now apply lookup_app_l_Some.
  - now rewrite list_lookup_insert_ne by congruence.
Qed.

Lemma rush_drain (n : nat) (fuel : nat) :
  forall s, rush n s -> turns (callers s) (microtasks s) <= fuel ->
            exists s', drain fuel s = Some s' /\ rush n s' /\ microtasks s' = [].
Proof.
  induction fuel as [|k IH]; intros s Hrush Hfuel.
  - destruct (microtasks s) as [|i rest] eqn:Hq.
    + exists s. cbn [drain]. rewrite Hq. auto.
    + exfalso. cbn [turns] in Hfuel.
      destruct (callers s !! i) as [[]|]; lia.
  - cbn [drain]. destruct (microtasks s) as [|i rest] eqn:Hq.
    + exists s. auto.
    + destruct Hrush as (Hs & Hc & Hf & Hlen & Hnd & Hdue & Hin & Hsum).
      rewrite ?Hq in *. apply NoDup_cons in Hnd. destruct Hnd as [Hi Hnd].
      rewrite list_elem_of_In in Hi.
      destruct (Hdue i (or_introl eq_refl)) as (p & Hp & Hcase).
      assert (Hlt : i < length (callers s)).
      { destruct Hcase as [H|H]; now apply lookup_lt_Some in H. }
      apply IH; unfold resume; cbn [callers promises session];
        rewrite nth_error_lookup; destruct Hcase as [Hci|Hci]; rewrite Hci;
        cbv beta iota; rewrite nth_error_lookup, Hp; cbv beta iota; rewrite ?Hs.
      * (* line 58 finds no session: download again, from the cache *)
        unfold callDownload. cbn [cache promises].
        destruct (cache s) as [d|] eqn:Hd; [|congruence]. cbn [start].
        unfold suspend, setCaller, isSettled. cbn. rewrite nth_error_end. cbn.
        unfold rush. cbn. rewrite ?Hd.
        repeat split; try congruence.
        -- now rewrite length_insert.
        -- apply NoDup_app. split; [exact Hnd|]. split; [|apply NoDup_singleton].
           intros x Hx [->|[]]%list_elem_of_In. apply Hi. now apply list_elem_of_In.
        -- intros j Hj. apply in_app_iff in Hj. destruct Hj as [Hj|[<-|[]]].
           ++ eapply (due_grows s); [reflexivity|reflexivity| |apply Hdue; now right].
              intros ->. contradiction.
           ++ exists (length (promises s)). cbn. split.
              ** apply list_lookup_middle. reflexivity.
              ** right. now apply list_lookup_insert_eq.
        -- intros j Hj Hnot.
           assert (Hji : j <> i) by (intros ->; apply Hnot, in_app_iff; right; now left).
           rewrite list_lookup_insert_ne by congruence. apply Hin; [exact Hj|].
           intros [->|H]; [congruence|]. apply Hnot, in_app_iff. now left.
        -- rewrite length_app. cbn in *. lia.
      * (* line 64: the download is done, construct the session *)
        unfold callCreate, suspend, setCaller, isSettled. cbn. rewrite nth_error_end. cbn.
        unfold rush. cbn.
        repeat split; try congruence.
        -- now rewrite length_insert.
        -- intros j Hj.
           eapply (due_grows s); [reflexivity|reflexivity| |apply Hdue; now right].
           intros ->. contradiction.
        -- intros j Hj Hnot. destruct (Nat.eq_dec j i) as [->|Hji].
           ++ eexists. now apply list_lookup_insert_eq.
           ++ rewrite list_lookup_insert_ne by congruence. apply Hin; [exact Hj|].
              intros [->|H]; [congruence|contradiction].
        -- cbn in *. lia.
      * unfold callDownload. cbn [cache promises].
        destruct (cache s) as [d|] eqn:Hd; [|congruence]. cbn [start].
        unfold suspend, setCaller, isSettled. cbn. rewrite nth_error_end. cbn.
        rewrite turns_app, turns_insert by assumption.
        cbn [turns]. rewrite list_lookup_insert_eq by assumption.
        cbn [turns] in Hfuel. rewrite Hci in Hfuel. lia.
      * unfold callCreate, suspend, setCaller, isSettled. cbn. rewrite nth_error_end. cbn.
        rewrite turns_insert by assumption.
        cbn [turns] in Hfuel. rewrite Hci in Hfuel. lia.
Qed.

(** X20.  C1's scenario for any number of callers.  When [n] requests call
    [getSession()] while the download is in flight and the download then
    succeeds, the model has been fetched once, but every one of the [n]
    callers has started a session construction of its own, and each is
    suspended inside [create] with no session published yet. *)
Theorem getSession_every_caller_constructs (n : nat) (net : network) :
  0 < n ->
  settled (downloadModel None net) = Resolved ->
  exists s : state,
    run (map Call (seq 0 n) ++ [DownloadEnds 0 net]) (init n) = Some s
    /\ fetches s = 1 /\ creates s = n /\ session s = None
    /\ forall i, i < n -> exists p, callers s !! i = Some (AwaitCreate p).
Proof.
  intros Hn Hnet. rewrite run_app, crowd_all by assumption. cbn [run step].
  change (finish net (cache (crowd n n))) with (downloadModel None net). rewrite Hnet.
  destruct (downloadModel_resolved_caches None net Hnet) as [body Hbody].
  rewrite Hbody.
  assert (Hawaits : forall i, In i (seq 0 n) -> awaits (crowd n n) 0 i = true).
  { intros i Hi. apply in_seq in Hi. unfold awaits. rewrite nth_error_lookup.
    destruct (crowd_lookup n i) as [-> | ->]; [lia|reflexivity|reflexivity]. }
  destruct (rush_drain n (budget (crowd n n))
              (settle 0 Fulfilled (Some body) (crowd n n))) as (s & Hdrain & Hrush & Hq).
  - unfold settle, rush. cbn [session cache fetches callers microtasks waiting crowd app].
    rewrite (filter_all _ _ Hawaits).
    repeat split; try congruence.
    + cbn. rewrite length_app, !repeat_length. lia.
    + apply NoDup_seq.
    + intros i Hi. apply in_seq in Hi. exists 0. split; [reflexivity|].
      cbn [callers]. destruct (crowd_lookup n i) as [H|H]; [lia|now right|now left].
    + intros i Hi Hnot. destruct Hnot. apply in_seq. lia.
    + rewrite length_seq. reflexivity.
  - unfold settle. cbn [callers microtasks waiting crowd app].
    rewrite (filter_all _ _ Hawaits).
    pose proof (turns_bound (callers (crowd n n)) (seq 0 n)) as Hb.
    rewrite length_seq in Hb. unfold budget. cbn [callers crowd] in *.
    cbn [length]. rewrite length_app, !repeat_length. lia.
  - exists s. split; [now rewrite Hdrain|].
    destruct Hrush as (Hs & Hc & Hf & Hlen & Hnd & Hdue & Hin & Hsum).
    rewrite Hq in *. cbn in Hsum. repeat split; try assumption; try lia.
    intros i Hi. apply Hin; [exact Hi|]. intros [].
Qed.

End CrowdFacts.

Lemma getSession_every_caller_constructs_witness :
  exists s : state,
    run (map Call (seq 0 3) ++ [DownloadEnds 0 releaseNet]) (init 3) = Some s
    /\ fetches s = 1%nat /\ creates s = 3%nat /\ session s = None
    /\ forall i, (i < 3)%nat -> exists p, callers s !! i = Some (AwaitCreate p).
Proof.
  apply (getSession_every_caller_constructs 3 releaseNet).
  - lia.
  - reflexivity.
Defined.

From Stdlib Require Import DecimalString.

(* ===================================================================== *)
(** ** The GET handler and the vocabulary store *)
(* ===================================================================== *)

Module Status.
Import Text Acquirer Handler.

(** [(x).toFixed(2)] for [x = size / (1024 * 1024)].  The quotient is
    exact for every file size a number can hold without rounding, and
    [toFixed] takes the integer [n] with [n / 100] nearest to [x], the
    larger one of two: [n] is [size * 100 / 2^20] rounded half up. *)
Definition hundredths (size : Z) : Z := (size * 100 + 2 ^ 19) / 2 ^ 20.

Definition decimal (n : Z) : ustring :=
  of_ascii (NilZero.string_of_uint (N.to_uint (Z.to_N n))).

Definition digit (d : Z) : N := Z.to_N (48 + d).

(** The integer [n] of hundredths written with two decimals. *)
Definition toFixed2 (n : Z) : ustring :=
  decimal (n / 100) ++ of_ascii "." ++ [digit (n mod 100 / 10); digit (n mod 10)].

Definition notDownloaded : ustring :=
  of_ascii "nen" ++ [237%N] ++ of_ascii " sta" ++ [382%N] ++ of_ascii "en".

Definition noteCached : ustring :=
  of_ascii "Model je v cache, requests budou rychl" ++ [233%N].

Definition noteFirst : ustring :=
  of_ascii "Prvn" ++ [237%N] ++ of_ascii " request st" ++ [225%N]
  ++ of_ascii "hne model (~30s)".

Definition modelName : ustring :=
  of_ascii "Kvantizovan" ++ [253%N] ++ of_ascii " czech-gpt2-finetuned-qa".

Definition usage : json :=
  JObject
    [(of_ascii "method", JString (of_ascii "POST"));
     (of_ascii "headers",
      JObject [(of_ascii "Content-Type", JString (of_ascii "application/json"))]);
     (of_ascii "body",
      JObject [(of_ascii "question",
                JString (of_ascii "tvoje ot" ++ [225%N] ++ of_ascii "zka"))])].

(** Lines 236-258: the body of the response, from the file at
    [MODEL_CACHE]; the size of a file is the number of its bytes. *)
Definition GET (d : disk) : json :=
  let modelCached := match d with Some _ => true | None => false end in
  let modelSize :=
    match d with
    | Some content => toFixed2 (hundredths (len content)) ++ of_ascii " MB"
    | None => notDownloaded
    end in
  JObject
    [(of_ascii "status", JString (of_ascii "online"));
     (of_ascii "model", JString modelName);
     (of_ascii "model_size", JString (of_ascii "124 MB"));
     (of_ascii "model_cached", JBool modelCached);
     (of_ascii "cache_size", JString modelSize);
     (of_ascii "endpoint", JString (of_ascii "/api/qa"));
     (of_ascii "usage", usage);
     (of_ascii "note", JString (if modelCached then noteCached else noteFirst))].

(** A member of a response body. *)
Definition field (name : string) (body : json) : option json :=
  match body with
  | JObject members => lookup (of_ascii name) members
  | _ => None
  end.

End Status.

Module VocabStore.
Import Vocab.

(** The module-level variable of line 11 and the number of times the
    vocabulary file has been read. *)
Record store : Type := {
  vocabData : option vocabulary;
  reads : nat
}.

(** Lines 77-83.  [file] is what reading and parsing the file gives at the
    time of the call: an exception, or the object in the file. *)
Definition getVocab (file : string + vocabulary) (s : store)
  : (string + vocabulary) * store :=
  match vocabData s with
  | Some v => (inr v, s)
  | None =>
      match file with
      | inl e => (inl e, {| vocabData := None; reads := S (reads s) |})
      | inr v => (inr v, {| vocabData := Some v; reads := S (reads s) |})
      end
  end.

(** One call after the other, each with the file as it is at that
    time. *)
Fixpoint getVocabs (files : list (string + vocabulary)) (s : store)
  : list (string + vocabulary) * store :=
  match files with
  | [] => ([], s)
  | file :: rest =>
      let (r, s') := getVocab file s in
      let (rs, s'') := getVocabs rest s' in
      (r :: rs, s'')
  end.

End VocabStore.

Import Status VocabStore.

(* ===================================================================== *)
(** ** Properties of the GET handler and of the vocabulary store *)
(* ===================================================================== *)

Section StatusFacts.

(** X21.  The status endpoint and the download.  Before any download the model
    is reported as not cached.  After a download attempt that started
    without a file it is reported as cached exactly when the first
    request got a response, whether or not the download succeeded; when
    the attempt was rejected and a file is left, the reported size is
    ["0.00 MB"]. *)
Theorem GET_after_download (net : network) :
  field "model_cached" (GET None) = Some (JBool false)
  /\ field "model_cached" (GET (after (downloadModel None net)))
     = Some (JBool match first net with
                   | RequestError _ => false
                   | Response _ _ => true
                   end)
  /\ (settled (downloadModel None net) <> Resolved ->
      after (downloadModel None net) <> None ->
      field "cache_size" (GET (after (downloadModel None net)))
      = Some (JString (of_ascii "0.00 MB"))).
Proof.
  split; [reflexivity|].
  unfold downloadModel, start, finish.
  destruct (first net) as [e|statusCode body]; cbn [after settled].
  - split; [reflexivity|]. intros _ H. now destruct H.
  - destruct (_ || _)%bool.
    + destruct (redirected net) as [e|statusCode' body']; cbn [after settled].
      * split; reflexivity.
      * split; [reflexivity|]. intros H. now destruct H.
    + cbn [after settled]. split; [reflexivity|]. intros H. now destruct H.
Qed.

Lemma GET_after_download_witness :
  field "model_cached" (GET (after (downloadModel None brokenRedirect)))
  = Some (JBool true)
  /\ field "cache_size" (GET (after (downloadModel None brokenRedirect)))
     = Some (JString (of_ascii "0.00 MB")).
Proof.
  split.
  - apply (proj1 (proj2 (GET_after_download brokenRedirect))).
  - apply (proj2 (proj2 (GET_after_download brokenRedirect))); discriminate.
Defined.

Lemma getVocabs_loaded (v : vocabulary) (files : list (string + vocabulary)) (r : nat) :
  getVocabs files {| vocabData := Some v; reads := r |}
  = (repeat (inr v) (length files), {| vocabData := Some v; reads := r |}).
Proof.
  induction files as [|file files IH]; [reflexivity|].
  cbn [getVocabs getVocab vocabData length repeat]. now rewrite IH.
Qed.

(** X22.  Calls of [getVocab] one after the other.  Each call that fails to
    read the file throws and leaves the next call to read it again; the
    first call that succeeds stores the vocabulary, and from then on the
    file is not read any more: every later call returns that vocabulary,
    whatever the file holds by then. *)
Theorem getVocab_reads_until_success (errors : list string) (v : vocabulary)
  (later : list (string + vocabulary)) :
  getVocabs (map inl errors ++ inr v :: later) {| vocabData := None; reads := 0 |}
  = (map inl errors ++ repeat (inr v) (S (length later)),
     {| vocabData := Some v; reads := S (length errors) |}).
Proof.
  assert (H : forall r,
    getVocabs (map inl errors ++ inr v :: later) {| vocabData := None; reads := r |}
    = (map inl errors ++ repeat (inr v) (S (length later)),
       {| vocabData := Some v; reads := S (length errors + r) |})).
  { induction errors as [|e errors IH]; intros r.
    - cbn [map app getVocabs getVocab vocabData reads length repeat].
      now rewrite getVocabs_loaded.
    - cbn [map app getVocabs getVocab vocabData reads length].
      rewrite IH. do 3 f_equal. lia. }
  rewrite H. do 3 f_equal. lia.
Qed.

End StatusFacts.

(* ===================================================================== *)
(** ** Further properties of the POST handler *)
(* ===================================================================== *)

Section ResponseFacts.

Lemma len_nil_inv {A : Type} (l : list A) : len l = 0 -> l = [].
Proof. destruct l; [reflexivity|]. unfold len. cbn. lia. Qed.

Lemma truthy_not_nil (s : ustring) : truthy s = true -> s <> [].
Proof. destruct s; [discriminate|]. intros _. discriminate. Qed.

Lemma tokenize_prompt_len (vocab : vocabulary) (question : ustring) :
  len (tokenize vocab (prompt question)) = len (tokenize vocab question) + 2.
Proof.
  unfold tokenize. rewrite words_prompt. unfold len. cbn [map length].
  rewrite !length_map, length_app. cbn [length]. lia.
Qed.

Lemma answer_200 (w : world) (question q a : ustring) (i o : Z) :
  answer w question = Json200 q a i o ->
  q = question /\ a <> []
  /\ i = len (tokenize (vocab w) (prompt question))
  /\ 0 <= o <= 100 /\ o <= Z.max 0 (512 - i)
  /\ (o = 0 -> a = fallback).
Proof.
  unfold answer. destruct (sessionFailure w); [discriminate|].
  destruct (inputIds _); [|discriminate].
  destruct (forward w _ _) as [f|logitsData]; [discriminate|].
  set (inputTokens := tokenize (vocab w) (prompt question)).
  set (out := decode logitsData (len (vocab w)) (len inputTokens) maxLength maxNewTokens).
  intros [= <- <- <- <-].
  assert (Hlen : 0 <= len out <= Z.max 0 (Z.min 100 (512 - len inputTokens))).
  { split; [apply len_nonneg|]. unfold out, decode.
    pose proof (decodeLoop_len logitsData (len (vocab w)) (len inputTokens) maxLength
                  (Z.to_nat maxNewTokens) 0 []) as H.
    change (len (@nil Z)) with 0 in H. unfold maxLength, maxNewTokens in *. lia. }
  split; [reflexivity|]. split.
  - destruct (truthy (detokenize (vocab w) (map Id out))) eqn:Ht.
    + now apply truthy_not_nil.
    + discriminate.
  - split; [reflexivity|]. split; [lia|]. split; [lia|].
    intros Ho. apply len_nil_inv in Ho. rewrite Ho. reflexivity.
Qed.

(** X23.  What a 200 response holds.  The question is the one sent and is not
    empty; the answer is never empty; [input_tokens] is the number of
    tokens of the prompt, which is the number of tokens of the question
    plus two; [output_tokens] is at most 100 and at most what is left of
    the 512 positions after the prompt; and with no output token the
    answer is the fallback text. *)
Theorem POST_200_response (w : world) (body : option json) (q a : ustring) (i o : Z) :
  POST w body = Json200 q a i o ->
  (exists v, body = Some v /\ questionOf v = Some (JString q))
  /\ q <> [] /\ a <> []
  /\ i = len (tokenize (vocab w) q) + 2
  /\ 0 <= o <= 100 /\ o <= Z.max 0 (512 - i)
  /\ (o = 0 -> a = fallback).
Proof.
  intros H. destruct body as [v|]; [|discriminate].
  destruct (json_null_dec v) as [->|Hv]; [discriminate|].
  destruct (POST_cases w v Hv) as [(q' & Hq & Hne & HP)|[_ HP]];
    rewrite HP in H; [|discriminate].
  apply answer_200 in H. destruct H as (-> & Ha & Hi & Ho & Ho' & Hf).
  rewrite tokenize_prompt_len in Hi.
  split; [now exists v|]. repeat split; try assumption; lia.
Qed.

Lemma POST_200_response_witness :
  (exists v, Some longBody = Some v /\ questionOf v = Some (JString longQuestion))
  /\ longQuestion <> [] /\ fallback <> []
  /\ 514 = len (tokenize (vocab quietWorld) longQuestion) + 2
  /\ 0 <= 0 <= 100 /\ 0 <= Z.max 0 (512 - 514)
  /\ (0 = 0 -> fallback = fallback).
Proof.
  apply (POST_200_response quietWorld (Some longBody) longQuestion fallback 514 0).
  vm_compute. reflexivity.
Defined.

(** X24.  A question with a word that resolves to an inherited object among
    the first 512 tokens of its prompt ([constructor] or [__proto__],
    when the vocabulary has no such key) gets status 500 although the
    session is there: the tensor of identifiers cannot be built. *)
Theorem POST_inherited_word (w : world) (body : json) (question : ustring) :
  questionOf body = Some (JString question) ->
  question <> [] ->
  sessionFailure w = None ->
  In Inherited (firstn 512 (tokenize (vocab w) (prompt question))) ->
  POST w (Some body) = Json500 NotANumber.
Proof.
  intros Hq Hne Hsession Hin.
  assert (Hbody : body <> JNull) by (intros ->; discriminate).
  destruct (POST_cases w body Hbody) as [(q & Hq' & _ & ->)|[Hall _]];
    [|now apply Hall in Hq].
  rewrite Hq in Hq'. injection Hq' as <-.
  unfold answer. rewrite Hsession.
  assert (Hids : inputIds (padTokens (tokenize (vocab w) (prompt question))) = None).
  { apply inputIds_None. rewrite padTokens_closed. now apply In_firstn_fill. }
  now rewrite Hids.
Qed.

Lemma POST_inherited_word_witness :
  POST quietWorld (Some (JObject [(of_ascii "question",
                                   JString (of_ascii "What is a constructor?"))]))
  = Json500 NotANumber.
Proof.
  apply (POST_inherited_word quietWorld _ (of_ascii "What is a constructor?")).
  - reflexivity.
  - discriminate.
  - reflexivity.
  - vm_compute. tauto.
Defined.

(** The response with another question put in its [question] field. *)
Definition reask (question : ustring) (r : response) : response :=
  match r with
  | Json200 _ a i o => Json200 question a i o
  | _ => r
  end.

Lemma answer_by_tokens (w : world) (q1 q2 : ustring) :
  tokenize (vocab w) q1 = tokenize (vocab w) q2 ->
  answer w q2 = reask q2 (answer w q1).
Proof.
  intros Htok.
  assert (H : tokenize (vocab w) (prompt q2) = tokenize (vocab w) (prompt q1)).
  { unfold tokenize in *. rewrite !words_prompt. cbn [map]. rewrite !map_app.
    now rewrite Htok. }
  unfold answer. rewrite H. destruct (sessionFailure w); [reflexivity|].
  destruct (inputIds _); [|reflexivity].
  destruct (forward w _ _); reflexivity.
Qed.

(** X25.  The response depends on the question only through its tokens: two
    non-empty questions with the same tokens (which differ, say, in case,
    punctuation or spacing) get the same response, up to the [question]
    field that echoes what was sent. *)
Theorem POST_depends_on_tokens (w : world) (v1 v2 : json) (q1 q2 : ustring) :
  questionOf v1 = Some (JString q1) -> q1 <> [] ->
  questionOf v2 = Some (JString q2) -> q2 <> [] ->
  tokenize (vocab w) q1 = tokenize (vocab w) q2 ->
  POST w (Some v2) = reask q2 (POST w (Some v1)).
Proof.
  intros H1 Hne1 H2 Hne2 Htok.
  assert (Hv1 : v1 <> JNull) by (intros ->; discriminate).
  assert (Hv2 : v2 <> JNull) by (intros ->; discriminate).
  destruct (POST_cases w v1 Hv1) as [(q & Hq & _ & ->)|[Hall _]];
    [|now apply Hall in H1].
  rewrite H1 in Hq. injection Hq as <-.
  destruct (POST_cases w v2 Hv2) as [(q & Hq & _ & ->)|[Hall _]];
    [|now apply Hall in H2].
  rewrite H2 in Hq. injection Hq as <-.
  now apply answer_by_tokens.
Qed.

Lemma POST_depends_on_tokens_witness :
  POST quietWorld (Some (JObject [(of_ascii "question", JString (of_ascii "  AHOJ, svete!"))]))
  = reask (of_ascii "  AHOJ, svete!")
      (POST quietWorld (Some (JObject [(of_ascii "question", JString (of_ascii "ahoj svete"))]))).
Proof.
  apply (POST_depends_on_tokens quietWorld _ _ (of_ascii "ahoj svete") (of_ascii "  AHOJ, svete!")).
  - reflexivity.
  - discriminate.
  - reflexivity.
  - discriminate.
  - reflexivity.
Defined.

End ResponseFacts.
